(** * Snake game: the game-state core of [snake.py]

    A shallow embedding of the classes [Snake], [Food] and [Game] of
    [snake.py], and the properties of the game-state update loop: movement,
    direction changes, growth, collisions and restart.

    Python integers are unbounded, so coordinates and the score are [Z].
    A position or a direction is a tuple of two integers, a body is a list
    of positions with the head first.  The [draw] methods are modelled by
    the list of rectangles they draw; the calls of the loop that only show
    a frame or pace it ([_draw_elements], [pygame.display.flip],
    [clock.tick]) return nothing the game state depends on and are left
    out of [run]. *)

From Stdlib Require Import ZArith List Bool Lia.
Import ListNotations.
Open Scope Z_scope.

(** ** Constants *)

Definition SCREEN_WIDTH : Z := 600.
Definition SCREEN_HEIGHT : Z := 480.
Definition GRID_SIZE : Z := 20.
(* Python's [//] is floor division, as is [Z.div]. *)
Definition GRID_WIDTH : Z := SCREEN_WIDTH / GRID_SIZE.
Definition GRID_HEIGHT : Z := SCREEN_HEIGHT / GRID_SIZE.

Definition Pos : Type := (Z * Z)%type.

Definition UP : Pos := (0, -1).
Definition DOWN : Pos := (0, 1).
Definition LEFT : Pos := (-1, 0).
Definition RIGHT : Pos := (1, 0).

(** ** Colors and the drawing surface *)

Definition Color : Type := (Z * Z * Z)%type.

Definition BLACK : Color := (0, 0, 0).
Definition WHITE : Color := (255, 255, 255).
Definition GREEN : Color := (0, 255, 0).
Definition RED : Color := (255, 0, 0).

(* A [pygame.Rect]: four C ints. *)
Record Rect : Type := mkRect
  { left : Z; top : Z; width : Z; height : Z }.

Definition fits_c_int (v : Z) : bool := (- 2 ^ 31 <=? v) && (v <? 2 ^ 31).

(* [pygame.Rect(left, top, width, height)] on Python integers.  The fields
   are stored as C ints: the model covers the arguments that fit, where the
   rectangle holds them as they are, and gives [None] for the others, whose
   conversion is pygame's own and is not modelled. *)
Definition Rect_new (l t w h : Z) : option Rect :=
  if fits_c_int l && fits_c_int t && fits_c_int w && fits_c_int h
  then Some (mkRect l t w h)
  else None.

(* [pygame.draw.rect(surface, color, rect, width)]: line width 0, the
   default, fills the rectangle.  A surface is the list of the calls drawn
   on it, oldest first. *)
Inductive DrawCmd : Type :=
| DrawRect (color : Color) (rect : Rect) (line : Z).

Definition Surface : Type := list DrawCmd.

(* [==] and [!=] on tuples of two integers. *)
Definition pos_eqb (p q : Pos) : bool :=
  (fst p =? fst q) && (snd p =? snd q).

(* [p in l] on a list of tuples. *)
Fixpoint pos_in (p : Pos) (l : list Pos) : bool :=
  match l with
  | [] => false
  | q :: l' => pos_eqb q p || pos_in p l'
  end.

(** ** Outcomes and the world the program runs in *)

Inductive Exn : Type :=
| IndexError
| ValueError
| SystemExit.

(* A call returns, raises, or never returns. *)
Inductive outcome (A : Type) : Type :=
| Ok (a : A)
| Raise (e : Exn)
| Diverge.
Arguments Ok {A} a.
Arguments Raise {A} e.
Arguments Diverge {A}.

Definition obind {A B} (o : outcome A) (k : A -> outcome B) : outcome B :=
  match o with
  | Ok a => k a
  | Raise e => Raise e
  | Diverge => Diverge
  end.

(** ** class Snake *)

Module Snake.

Record t : Type := mk
  { body : list Pos;
    direction : Pos;
    growth_pending : bool }.

(* [Snake.__init__] *)
Definition init : t :=
  {| body := [(GRID_WIDTH / 2, GRID_HEIGHT / 2)];
     direction := RIGHT;
     growth_pending := false |}.

(* [self.body[0]] raises IndexError on an empty list; [self.body.pop()]
   removes the last element, and is only reached with a non-empty body. *)
Definition move (s : t) : outcome t :=
  match body s with
  | [] => Raise IndexError
  | (head_x, head_y) :: _ =>
      let new_head := (head_x + fst (direction s), head_y + snd (direction s)) in
      if negb (growth_pending s)
      then Ok {| body := new_head :: removelast (body s);
                 direction := direction s;
                 growth_pending := growth_pending s |}
      else Ok {| body := new_head :: body s;
                 direction := direction s;
                 growth_pending := false |}
  end.

Definition change_direction (s : t) (new_direction : Pos) : t :=
  if negb (pos_eqb (fst new_direction * -1, snd new_direction * -1) (direction s))
  then {| body := body s;
          direction := new_direction;
          growth_pending := growth_pending s |}
  else s.

Definition grow (s : t) : t :=
  {| body := body s;
     direction := direction s;
     growth_pending := true |}.

Definition get_head_position (s : t) : outcome Pos :=
  match body s with
  | [] => Raise IndexError
  | h :: _ => Ok h
  end.

(* The body of the [for] loop of [draw]. *)
Definition draw_segment (surface : Surface) (segment : Pos) : option Surface :=
  match Rect_new (fst segment * GRID_SIZE) (snd segment * GRID_SIZE)
                 GRID_SIZE GRID_SIZE with
  | Some rect => Some (surface ++ [DrawRect GREEN rect 0; DrawRect BLACK rect 1])
  | None => None
  end.

Definition draw (s : t) (surface : Surface) : option Surface :=
  fold_left (fun acc segment =>
               match acc with
               | Some sf => draw_segment sf segment
               | None => None
               end)
            (body s) (Some surface).

End Snake.

(** ** The world: the [random] module's generator and pygame's event queue *)

Inductive Key : Type := K_UP | K_DOWN | K_LEFT | K_RIGHT | K_OTHER.

Inductive Event : Type :=
| QUIT
| KEYDOWN (key : Key)
| OTHER.

(* [entropy] and [cursor] stand for the state of Python's global random
   generator: the [cursor]-th raw draw is the next one used.  [queue] lists
   what the successive calls of [pygame.event.get()] return; once it is
   used up no event ever arrives and every later call returns []. *)
Record World : Type := mkWorld
  { entropy : nat -> Z;
    cursor : nat;
    queue : list (list Event) }.

Definition M (A : Type) : Type := World -> outcome (A * World).

Definition ret {A} (a : A) : M A := fun w => Ok (a, w).

Definition bind {A B} (m : M A) (k : A -> M B) : M B :=
  fun w => match m w with
           | Ok (a, w') => k a w'
           | Raise e => Raise e
           | Diverge => Diverge
           end.

Definition lift {A} (o : outcome A) : M A :=
  fun w => match o with
           | Ok a => Ok (a, w)
           | Raise e => Raise e
           | Diverge => Diverge
           end.

Notation "x <- m ;; k" := (bind m (fun x => k))
  (at level 61, m at next level, right associativity).

(* [random.randint a b]: an integer N with a <= N <= b; ValueError when the
   range is empty. *)
Definition randint (a b : Z) : M Z :=
  fun w =>
    if b <? a then Raise ValueError
    else Ok (a + entropy w (cursor w) mod (b - a + 1),
             {| entropy := entropy w; cursor := S (cursor w); queue := queue w |}).

(* [pygame.event.get()]: the events queued since the last call. *)
Definition event_get : M (list Event) :=
  fun w =>
    match queue w with
    | [] => Ok ([], w)
    | evs :: q => Ok (evs, {| entropy := entropy w; cursor := cursor w; queue := q |})
    end.

(** ** class Food *)

Module Food.

Record t : Type := mk { position : Pos }.

Definition spawn_food : M Pos :=
  x <- randint 0 (GRID_WIDTH - 1) ;;
  y <- randint 0 (GRID_HEIGHT - 1) ;;
  ret (x, y).

(* [Food.__init__] *)
Definition init : M t :=
  p <- spawn_food ;;
  ret {| position := p |}.

Definition draw (f : t) (surface : Surface) : option Surface :=
  match Rect_new (fst (position f) * GRID_SIZE) (snd (position f) * GRID_SIZE)
                 GRID_SIZE GRID_SIZE with
  | Some rect => Some (surface ++ [DrawRect RED rect 0; DrawRect BLACK rect 1])
  | None => None
  end.

End Food.

(** ** class Game *)

Module Game.

Record t : Type := mk
  { snake : Snake.t;
    food : Food.t;
    score : Z;
    game_over : bool }.

Definition set_snake (g : t) (s : Snake.t) : t :=
  {| snake := s; food := food g; score := score g; game_over := game_over g |}.

Definition set_game_over (g : t) (b : bool) : t :=
  {| snake := snake g; food := food g; score := score g; game_over := b |}.

(* [reset_game] overwrites every field of the game state, so the model
   takes no [self]. *)
Definition reset_game : M t :=
  f <- Food.init ;;
  ret {| snake := Snake.init; food := f; score := 0; game_over := false |}.

(* [Game.__init__]: the pygame set-up, then [self.reset_game()]. *)
Definition init : M t := reset_game.

(* One event of the [for] loop of [_handle_events]. *)
Definition handle_event (g : t) (e : Event) : outcome t :=
  match e with
  | QUIT => Raise SystemExit
  | KEYDOWN K_UP => Ok (set_snake g (Snake.change_direction (snake g) UP))
  | KEYDOWN K_DOWN => Ok (set_snake g (Snake.change_direction (snake g) DOWN))
  | KEYDOWN K_LEFT => Ok (set_snake g (Snake.change_direction (snake g) LEFT))
  | KEYDOWN K_RIGHT => Ok (set_snake g (Snake.change_direction (snake g) RIGHT))
  | KEYDOWN K_OTHER => Ok g
  | OTHER => Ok g
  end.

Fixpoint handle_all (evs : list Event) (g : t) : outcome t :=
  match evs with
  | [] => Ok g
  | e :: evs' => obind (handle_event g e) (handle_all evs')
  end.

Definition _handle_events (g : t) : M t :=
  evs <- event_get ;;
  lift (handle_all evs g).

Definition hits_wall (head_pos : Pos) : bool :=
  (fst head_pos <? 0) || (fst head_pos >=? GRID_WIDTH) ||
  (snd head_pos <? 0) || (snd head_pos >=? GRID_HEIGHT).

Definition _check_collisions (g : t) : M t :=
  head_pos <- lift (Snake.get_head_position (snake g)) ;;
  g1 <- (if pos_eqb head_pos (Food.position (food g))
         then p <- Food.spawn_food ;;
              ret {| snake := Snake.grow (snake g);
                     food := {| Food.position := p |};
                     score := score g + 10;
                     game_over := game_over g |}
         else ret g) ;;
  let g2 := if hits_wall head_pos then set_game_over g1 true else g1 in
  let g3 := if pos_in head_pos (tl (Snake.body (snake g2)))
            then set_game_over g2 true else g2 in
  ret g3.

(* The [for] loop inside the waiting loop of [_display_game_over]; the
   boolean is the local variable [waiting]. *)
Fixpoint wait_events (evs : list Event) (g : t) (waiting : bool) : M (t * bool) :=
  match evs with
  | [] => ret (g, waiting)
  | QUIT :: _ => lift (Raise SystemExit)
  | KEYDOWN _ :: evs' => g' <- reset_game ;; wait_events evs' g' false
  | OTHER :: evs' => wait_events evs' g waiting
  end.

(* [while waiting]: one call of [pygame.event.get()] per round.  The [for]
   loop does not poll, so the queue left after a round is the tail [q'].
   When the queue is used up no key ever comes and the loop spins
   forever. *)
Fixpoint wait_loop (q : list (list Event)) (g : t) (e : nat -> Z) (c : nat)
  : outcome (t * World) :=
  match q with
  | [] => Diverge
  | evs :: q' =>
      match wait_events evs g true {| entropy := e; cursor := c; queue := q' |} with
      | Ok ((g', waiting), w') =>
          if waiting then wait_loop q' g' (entropy w') (cursor w')
          else Ok (g', w')
      | Raise x => Raise x
      | Diverge => Diverge
      end
  end.

Definition _display_game_over (g : t) : M t :=
  fun w => wait_loop (queue w) g (entropy w) (cursor w).

(* The body of [while True] in [run]. *)
Definition run_body (g : t) : M t :=
  g1 <- _handle_events g ;;
  if negb (game_over g1)
  then s' <- lift (Snake.move (snake g1)) ;;
       _check_collisions (set_snake g1 s')
  else _display_game_over g1.

(* [n] rounds of the loop of [run]. *)
Fixpoint run (n : nat) (g : t) : M t :=
  match n with
  | O => ret g
  | S n' => g' <- run_body g ;; run n' g'
  end.

(* The game states at the end of each completed round, for at most [n]
   rounds. *)
Fixpoint run_trace (n : nat) (g : t) (w : World) : list t :=
  match n with
  | O => []
  | S n' =>
      match run_body g w with
      | Ok (g', w') => g' :: run_trace n' g' w'
      | _ => []
      end
  end.

(* [Game().run()]: the state after [__init__], then the states after
   each round. *)
Definition main_trace (n : nat) (w : World) : list t :=
  match init w with
  | Ok (g, w') => g :: run_trace n g w'
  | _ => []
  end.

End Game.

(** ** Vocabulary of the properties *)

Definition padd (p d : Pos) : Pos := (fst p + fst d, snd p + snd d).
Definition opposite (d : Pos) : Pos := (- fst d, - snd d).

Definition directions : list Pos := [UP; DOWN; LEFT; RIGHT].

Definition in_grid (p : Pos) : Prop :=
  0 <= fst p < GRID_WIDTH /\ 0 <= snd p < GRID_HEIGHT.

(* The world as [_handle_events] leaves it: one poll of the event queue. *)
Definition after_poll (w : World) : World :=
  {| entropy := entropy w; cursor := cursor w; queue := tl (queue w) |}.

(* The events the next poll returns. *)
Definition next_events (w : World) : list Event := hd [] (queue w).

(* Events change the heading and nothing else. *)
Definition same_but_heading (g g1 : Game.t) : Prop :=
  Snake.body (Game.snake g1) = Snake.body (Game.snake g) /\
  Snake.growth_pending (Game.snake g1) = Snake.growth_pending (Game.snake g) /\
  Game.food g1 = Game.food g /\
  Game.score g1 = Game.score g /\
  Game.game_over g1 = Game.game_over g.

(* A batch of events with no key press and no quit request. *)
Definition quiet (evs : list Event) : Prop := forall e, In e evs -> e = OTHER.

Definition has_key (evs : list Event) : Prop := exists k, In (KEYDOWN k) evs.

(* The food test of [_check_collisions] succeeded in the round that led
   from [g] to [g']: the head after the move is where the food was. *)
Definition eats (g g' : Game.t) : Prop :=
  Snake.get_head_position (Game.snake g') = Ok (Food.position (Game.food g)).

Definition len (g : Game.t) : nat := length (Snake.body (Game.snake g)).

(* Segment [i] of [new] is segment [i] of [old] moved by [d], for every
   segment of [old]. *)
Definition segments_shifted (old new : list Pos) (d : Pos) : Prop :=
  forall i p, nth_error old i = Some p -> nth_error new i = Some (padd p d).

(* The length changes only in rounds whose food test succeeds. *)
Definition grows_only_when_eating (tr : list Game.t) : Prop :=
  forall pre g1 g2 post,
    tr = pre ++ g1 :: g2 :: post ->
    Game.game_over g1 = false ->
    (len g1 <= len g2)%nat /\
    (len g2 <> len g1 -> len g2 = S (len g1) /\ eats g1 g2).

(** Concrete states used as examples. *)

(* A snake of two segments that went up and now heads right. *)
Definition bent_snake : Snake.t :=
  {| Snake.body := [(5, 5); (5, 6)];
     Snake.direction := RIGHT;
     Snake.growth_pending := false |}.

(* A snake about to run into its own body on a cell that holds the food. *)
Definition coiled_game : Game.t :=
  {| Game.snake := {| Snake.body := [(5, 5); (5, 6); (6, 6); (6, 5); (6, 4)];
                      Snake.direction := RIGHT;
                      Snake.growth_pending := false |};
     Game.food := {| Food.position := (6, 5) |};
     Game.score := 30;
     Game.game_over := false |}.

(* No input at all; the first food lands at (16, 12), right in front of the
   new snake, every later one at (0, 0). *)
Definition quiet_world : World :=
  {| entropy := fun n => match n with O => 16 | S O => 12 | _ => 0 end;
     cursor := 0;
     queue := [] |}.

Definition zero_world (q : list (list Event)) : World :=
  {| entropy := fun _ => 0; cursor := 0; queue := q |}.

Definition dead_game : Game.t :=
  {| Game.snake := {| Snake.body := [(30, 7); (29, 7); (28, 7)];
                      Snake.direction := RIGHT;
                      Snake.growth_pending := false |};
     Game.food := {| Food.position := (3, 3) |};
     Game.score := 20;
     Game.game_over := true |}.

(** Further vocabulary, for the invariants of a run. *)

(* Two cells that share a side. *)
Definition adjacent (p q : Pos) : Prop :=
  Z.abs (fst p - fst q) + Z.abs (snd p - snd q) = 1.

(* Every segment touches the next one. *)
Fixpoint chain (l : list Pos) : Prop :=
  match l with
  | p :: ((q :: _) as l') => adjacent p q /\ chain l'
  | _ => True
  end.

(* The direction an arrow key asks for in [_handle_events]. *)
Definition key_direction (k : Key) : option Pos :=
  match k with
  | K_UP => Some UP
  | K_DOWN => Some DOWN
  | K_LEFT => Some LEFT
  | K_RIGHT => Some RIGHT
  | K_OTHER => None
  end.

(* An event [_handle_events] has no branch for. *)
Definition ignored (e : Event) : Prop := e = OTHER \/ e = KEYDOWN K_OTHER.

(* The square of the screen that stands for a cell. *)
Definition cell_rect (p : Pos) : Rect :=
  mkRect (fst p * GRID_SIZE) (snd p * GRID_SIZE) GRID_SIZE GRID_SIZE.

(* The round from [g] in [w] ends in a freshly reset game. *)
Definition round_restarts (g : Game.t) (w : World) : Prop :=
  exists g' w',
    Game.run_body g w = Ok (g', w') /\
    Game.score g' = 0 /\
    Snake.body (Game.snake g') = [(15, 12)] /\
    Snake.direction (Game.snake g') = RIGHT /\
    Game.game_over g' = false.

(* Whenever the game is over and some key press arrives (and no quit
   request), the round restarts the game. *)
Definition any_key_restarts : Prop :=
  forall g w,
    Game.game_over g = true ->
    (exists evs, In evs (queue w) /\ has_key evs) ->
    (forall evs, In evs (queue w) -> ~ In QUIT evs) ->
    round_restarts g w.

Definition cmd_rect (c : DrawCmd) : Rect :=
  match c with DrawRect _ r _ => r end.

Definition rect_on_screen (r : Rect) : Prop :=
  0 <= left r /\ left r + width r <= SCREEN_WIDTH /\
  0 <= top r /\ top r + height r <= SCREEN_HEIGHT.

(* The pixel (x, y) is covered by [r]. *)
Definition covers (r : Rect) (x y : Z) : Prop :=
  left r <= x < left r + width r /\ top r <= y < top r + height r.

(* The score pays 10 for every segment grown or about to grow. *)
Definition score_matches_length (g : Game.t) : Prop :=
  Game.score g =
  10 * (Z.of_nat (len g) - 1 +
        (if Snake.growth_pending (Game.snake g) then 1 else 0)).

(* A straight snake of three segments heading right. *)
Definition straight_game : Game.t :=
  {| Game.snake := {| Snake.body := [(7, 7); (6, 7); (5, 7)];
                      Snake.direction := RIGHT;
                      Snake.growth_pending := false |};
     Game.food := {| Food.position := (20, 20) |};
     Game.score := 20;
     Game.game_over := false |}.

(* The state two rounds into the run of [quiet_world]: the first food is
   eaten, the snake has grown. *)
Definition grown_game : Game.t :=
  {| Game.snake := {| Snake.body := [(17, 12); (16, 12)];
                      Snake.direction := RIGHT;
                      Snake.growth_pending := false |};
     Game.food := {| Food.position := (0, 0) |};
     Game.score := 10;
     Game.game_over := false |}.

(** ** Basic facts *)

Lemma pos_eqb_eq (p q : Pos) : pos_eqb p q = true <-> p = q.
Proof.
  destruct p as [a b], q as [c d]; unfold pos_eqb; cbn.
  rewrite andb_true_iff, !Z.eqb_eq. split.
  - intros [-> ->]; reflexivity.
  - intros [= -> ->]; split; reflexivity.
Qed.

Lemma pos_eqb_neq (p q : Pos) : pos_eqb p q = false <-> p <> q.
Proof.
  rewrite <- pos_eqb_eq. destruct (pos_eqb p q); split; congruence.
Qed.

Lemma pos_in_In (p : Pos) (l : list Pos) : pos_in p l = true <-> In p l.
Proof.
  induction l as [|q l IH]; cbn.
  - split; [discriminate | tauto].
  - rewrite orb_true_iff, pos_eqb_eq, IH. tauto.
Qed.

Lemma length_removelast_cons {A} (x : A) (l : list A) :
  length (removelast (x :: l)) = length l.
Proof.
  revert x; induction l as [|y l IH]; intros x; [reflexivity|].
  change (removelast (x :: y :: l)) with (x :: removelast (y :: l)).
  cbn [length]; now rewrite IH.
Qed.

Lemma GRID_WIDTH_eq : GRID_WIDTH = 30.
Proof. reflexivity. Qed.

Lemma GRID_HEIGHT_eq : GRID_HEIGHT = 24.
Proof. reflexivity. Qed.

Lemma hits_wall_spec (p : Pos) : Game.hits_wall p = true <-> ~ in_grid p.
Proof.
  unfold Game.hits_wall, in_grid.
  rewrite !orb_true_iff, !Z.ltb_lt, !Z.geb_le. lia.
Qed.

(** ** Snake.move *)

(* [move] on a body with head [h], as one equation. *)
Lemma move_eq (s : Snake.t) (h : Pos) (rest : list Pos) :
  Snake.body s = h :: rest ->
  Snake.move s =
  Ok {| Snake.body := padd h (Snake.direction s) ::
                      (if Snake.growth_pending s then Snake.body s
                       else removelast (Snake.body s));
        Snake.direction := Snake.direction s;
        Snake.growth_pending := false |}.
Proof.
  intros Hb. unfold Snake.move. rewrite Hb. destruct h as [hx hy].
  destruct (Snake.growth_pending s); reflexivity.
Qed.

(* The two branches of [move] on a body with head [h]. *)
Lemma move_cases (s : Snake.t) (h : Pos) (rest : list Pos) :
  Snake.body s = h :: rest ->
  exists s',
    Snake.move s = Ok s' /\
    Snake.direction s' = Snake.direction s /\
    hd_error (Snake.body s') = Some (padd h (Snake.direction s)) /\
    (Snake.growth_pending s = false ->
       Snake.body s' = padd h (Snake.direction s) :: removelast (Snake.body s) /\
       length (Snake.body s') = length (Snake.body s) /\
       Snake.growth_pending s' = false) /\
    (Snake.growth_pending s = true ->
       Snake.body s' = padd h (Snake.direction s) :: Snake.body s /\
       length (Snake.body s') = S (length (Snake.body s)) /\
       Snake.growth_pending s' = false).
Proof.
  intros Hb. rewrite (move_eq s h rest Hb). eexists; split; [reflexivity|].
  cbn [Snake.body Snake.direction Snake.growth_pending hd_error].
  do 2 (split; [reflexivity|]).
  split; intros ->; (split; [reflexivity|]); (split; [|reflexivity]).
  - cbn [length]. rewrite Hb. now rewrite length_removelast_cons.
  - reflexivity.
Qed.

(** C1: on a non-empty body [move] puts old head + direction in front; with
    no growth pending the last segment is dropped first and the length is
    unchanged, with growth pending nothing is dropped, the length grows by
    exactly one and the flag is cleared. *)
Theorem move_spec (s : Snake.t) (h : Pos) (rest : list Pos) :
  Snake.body s = h :: rest ->
  exists s',
    Snake.move s = Ok s' /\
    Snake.direction s' = Snake.direction s /\
    hd_error (Snake.body s') = Some (padd h (Snake.direction s)) /\
    (Snake.growth_pending s = false ->
       Snake.body s' = padd h (Snake.direction s) :: removelast (Snake.body s) /\
       length (Snake.body s') = length (Snake.body s) /\
       Snake.growth_pending s' = false) /\
    (Snake.growth_pending s = true ->
       Snake.body s' = padd h (Snake.direction s) :: Snake.body s /\
       length (Snake.body s') = S (length (Snake.body s)) /\
       Snake.growth_pending s' = false).
Proof.
  intros Hb. pose proof (move_eq s h rest Hb) as Hm.
  destruct (Snake.growth_pending s) eqn:Hg; rewrite Hm; eexists;
    (split; [reflexivity|]);
    cbn [Snake.body Snake.direction Snake.growth_pending hd_error];
    (split; [reflexivity|]); (split; [reflexivity|]);
    split; intros Hp; try discriminate Hp.
  - repeat split.
  - split; [reflexivity|]. split; [|reflexivity].
    rewrite Hb. cbn [length]. now rewrite length_removelast_cons.
Qed.

Lemma move_spec_witness :
  exists s',
    Snake.move Snake.init = Ok s' /\
    Snake.body s' = [(16, 12)] /\
    length (Snake.body s') = length (Snake.body Snake.init).
Proof.
  destruct (move_spec Snake.init (15, 12) [] eq_refl)
    as (s' & Hm & _ & _ & Hno & _).
  destruct (Hno eq_refl) as (Hb & Hl & _).
  exists s'. repeat split; assumption.
Defined.

(** C4: on the 30 x 24 grid a new snake is [(15,12)] heading RIGHT; three
    moves give body [(18,12)], and with a [grow] before the third move the
    body ends as [(18,12); (17,12)]. *)
Theorem three_moves_scenario :
  GRID_WIDTH = 30 /\ GRID_HEIGHT = 24 /\
  Snake.body Snake.init = [(15, 12)] /\
  Snake.direction Snake.init = RIGHT /\
  (exists s3,
      obind (obind (Snake.move Snake.init) Snake.move) Snake.move = Ok s3 /\
      Snake.body s3 = [(18, 12)] /\ length (Snake.body s3) = 1%nat) /\
  (exists s3,
      obind (obind (Snake.move Snake.init) Snake.move)
            (fun s2 => Snake.move (Snake.grow s2)) = Ok s3 /\
      Snake.body s3 = [(18, 12); (17, 12)] /\ length (Snake.body s3) = 2%nat).
Proof.
  repeat split; try reflexivity; eexists; repeat split.
Qed.

(** ** Snake.grow followed by Snake.move *)

(** C5, as the code has it: after [grow] and one [move] on a non-empty body
    the length is one more, the new head is the old head plus the direction,
    and every segment the body had is still there, unmoved, one place
    further back; a second [move] keeps the length. *)
Theorem grow_then_move (s : Snake.t) (h : Pos) (rest : list Pos) :
  Snake.body s = h :: rest ->
  exists s1 s2,
    Snake.move (Snake.grow s) = Ok s1 /\
    Snake.body s1 = padd h (Snake.direction s) :: Snake.body s /\
    length (Snake.body s1) = S (length (Snake.body s)) /\
    (forall i p, nth_error (Snake.body s) i = Some p ->
                 nth_error (Snake.body s1) (S i) = Some p) /\
    Snake.move s1 = Ok s2 /\
    length (Snake.body s2) = length (Snake.body s1).
Proof.
  intros Hb.
  destruct (move_cases (Snake.grow s) h rest Hb) as (s1 & Hm1 & Hd1 & _ & _ & Hyes).
  destruct (Hyes eq_refl) as (Hb1 & Hl1 & Hg1).
  cbn [Snake.grow Snake.body Snake.direction] in Hb1, Hl1, Hd1.
  destruct (move_cases s1 _ _ Hb1) as (s2 & Hm2 & _ & _ & Hno & _).
  destruct (Hno Hg1) as (_ & Hl2 & _).
  exists s1, s2. repeat split; try assumption.
  intros i p Hi. rewrite Hb1. exact Hi.
Qed.

Lemma grow_then_move_witness :
  exists s1 s2,
    Snake.move (Snake.grow bent_snake) = Ok s1 /\
    Snake.body s1 = [(6, 5); (5, 5); (5, 6)] /\
    Snake.move s1 = Ok s2 /\
    length (Snake.body s2) = 3%nat.
Proof.
  destruct (grow_then_move bent_snake (5, 5) [(5, 6)] eq_refl)
    as (s1 & s2 & Hm1 & Hb1 & Hl1 & _ & Hm2 & Hl2).
  exists s1, s2. repeat split; try assumption.
  now rewrite Hl2, Hl1.
Defined.

(** C5 as worded fails: on a bent snake the old segments do not move by the
    direction vector.  After [grow] and [move] of the snake [(5,5); (5,6)]
    heading RIGHT the tail (5,6) has not become (6,6), which is no cell of
    the new body at all. *)
Lemma segments_do_not_shift :
  exists s1,
    Snake.move (Snake.grow bent_snake) = Ok s1 /\
    Snake.body s1 = [(6, 5); (5, 5); (5, 6)] /\
    ~ segments_shifted (Snake.body bent_snake) (Snake.body s1)
        (Snake.direction bent_snake) /\
    ~ In (padd (5, 6) (Snake.direction bent_snake)) (Snake.body s1).
Proof.
  eexists; split; [reflexivity|]. split; [reflexivity|]. split.
  - intros H. specialize (H 1%nat (5, 6) eq_refl). discriminate H.
  - cbn. intros [H|[H|[H|[]]]]; discriminate H.
Qed.

(** ** Snake.change_direction *)

(** C6: for a direction [d] among the four, [change_direction] leaves the
    snake as it is when [d] is the opposite of the heading, and otherwise
    sets the heading to [d] and nothing else.  The function is total: no
    error comes out of it. *)
Theorem change_direction_spec (s : Snake.t) (d : Pos) :
  In d directions ->
  (d = opposite (Snake.direction s) -> Snake.change_direction s d = s) /\
  (d <> opposite (Snake.direction s) ->
     Snake.direction (Snake.change_direction s d) = d /\
     Snake.body (Snake.change_direction s d) = Snake.body s /\
     Snake.growth_pending (Snake.change_direction s d) = Snake.growth_pending s).
Proof.
  intros _. unfold Snake.change_direction.
  destruct (pos_eqb (fst d * -1, snd d * -1) (Snake.direction s)) eqn:E; cbn [negb].
  - split; [reflexivity|]. intros Hn. exfalso. apply Hn.
    apply pos_eqb_eq in E. rewrite <- E. unfold opposite; cbn.
    destruct d as [a b]; cbn. f_equal; lia.
  - split; [|intros _; repeat split].
    intros ->. apply pos_eqb_neq in E. exfalso. apply E.
    unfold opposite; cbn. destruct (Snake.direction s) as [a b]; cbn. f_equal; lia.
Qed.

Lemma change_direction_spec_witness :
  Snake.change_direction Snake.init LEFT = Snake.init /\
  Snake.direction (Snake.change_direction Snake.init UP) = UP.
Proof.
  split.
  - apply (change_direction_spec Snake.init LEFT).
    + right; right; left; reflexivity.
    + reflexivity.
  - apply (change_direction_spec Snake.init UP).
    + left; reflexivity.
    + discriminate.
Defined.

(** ** Repeated Snake.grow *)

(** C10: any number n >= 1 of [grow] calls before a [move] is the same as
    one call: the state is the same, and the next [move] makes the body
    exactly one longer and clears the flag. *)
Theorem grow_idempotent (n : nat) (s : Snake.t) :
  (1 <= n)%nat ->
  Snake.body s <> [] ->
  Nat.iter n Snake.grow s = Snake.grow s /\
  exists s',
    Snake.move (Nat.iter n Snake.grow s) = Ok s' /\
    Snake.move (Snake.grow s) = Ok s' /\
    length (Snake.body s') = S (length (Snake.body s)) /\
    Snake.growth_pending s' = false.
Proof.
  intros Hn Hne.
  assert (Hit : Nat.iter n Snake.grow s = Snake.grow s).
  { destruct n as [|n]; [lia|]. clear Hn.
    induction n as [|n IH]; [reflexivity|].
    change (Nat.iter (S (S n)) Snake.grow s)
      with (Snake.grow (Nat.iter (S n) Snake.grow s)).
    rewrite IH. reflexivity. }
  split; [exact Hit|]. rewrite Hit.
  destruct (Snake.body s) as [|h rest] eqn:Hb; [congruence|].
  destruct (move_cases (Snake.grow s) h rest Hb) as (s' & Hm & _ & _ & _ & Hyes).
  destruct (Hyes eq_refl) as (_ & Hl & Hg).
  exists s'. cbn [Snake.grow Snake.body] in Hl. rewrite Hb in Hl.
  repeat split; assumption.
Qed.

Lemma grow_idempotent_witness :
  Nat.iter 3 Snake.grow Snake.init = Snake.grow Snake.init /\
  exists s',
    Snake.move (Nat.iter 3 Snake.grow Snake.init) = Ok s' /\
    Snake.move (Snake.grow Snake.init) = Ok s' /\
    length (Snake.body s') = 2%nat /\
    Snake.growth_pending s' = false.
Proof.
  apply (grow_idempotent 3 Snake.init).
  - lia.
  - discriminate.
Defined.

(** ** The pieces of one round of the loop *)

Lemma change_direction_frame (s : Snake.t) (d : Pos) :
  Snake.body (Snake.change_direction s d) = Snake.body s /\
  Snake.growth_pending (Snake.change_direction s d) = Snake.growth_pending s.
Proof.
  unfold Snake.change_direction.
  destruct (negb _); split; reflexivity.
Qed.

Lemma handle_event_frame (g g1 : Game.t) (e : Event) :
  Game.handle_event g e = Ok g1 -> same_but_heading g g1.
Proof.
  unfold same_but_heading.
  destruct e as [|[]|]; cbn; intros [= <-]; cbn;
    try (destruct (change_direction_frame (Game.snake g) UP) as [-> ->]);
    try (destruct (change_direction_frame (Game.snake g) DOWN) as [-> ->]);
    try (destruct (change_direction_frame (Game.snake g) LEFT) as [-> ->]);
    try (destruct (change_direction_frame (Game.snake g) RIGHT) as [-> ->]);
    repeat split.
Qed.

Lemma handle_all_frame (evs : list Event) (g g1 : Game.t) :
  Game.handle_all evs g = Ok g1 -> same_but_heading g g1.
Proof.
  revert g; induction evs as [|e evs IH]; intros g; cbn.
  - intros [= <-]. repeat split.
  - destruct (Game.handle_event g e) as [g0| |] eqn:He; cbn; try discriminate.
    intros H. apply IH in H. apply handle_event_frame in He.
    unfold same_but_heading in *.
    destruct H as (-> & -> & -> & -> & ->). exact He.
Qed.

Lemma handle_all_total (evs : list Event) (g : Game.t) :
  ~ In QUIT evs -> exists g1, Game.handle_all evs g = Ok g1.
Proof.
  revert g; induction evs as [|e evs IH]; intros g Hq; cbn.
  - eexists; reflexivity.
  - destruct e as [|k|].
    + exfalso; apply Hq; left; reflexivity.
    + destruct k; cbn; apply IH; intros H; apply Hq; right; exact H.
    + cbn; apply IH; intros H; apply Hq; right; exact H.
Qed.

Lemma event_get_eq (w : World) :
  event_get w = Ok (next_events w, after_poll w).
Proof.
  destruct w as [e c [|evs q]]; reflexivity.
Qed.

Lemma run_body_unfold (g : Game.t) (w : World) :
  Game.run_body g w =
  match Game.handle_all (next_events w) g with
  | Ok g1 =>
      if negb (Game.game_over g1)
      then match Snake.move (Game.snake g1) with
           | Ok s' => Game._check_collisions (Game.set_snake g1 s') (after_poll w)
           | Raise e => Raise e
           | Diverge => Diverge
           end
      else Game._display_game_over g1 (after_poll w)
  | Raise e => Raise e
  | Diverge => Diverge
  end.
Proof.
  unfold Game.run_body, Game._handle_events, bind, lift.
  rewrite event_get_eq.
  destruct (Game.handle_all (next_events w) g) as [g1| |]; try reflexivity.
  destruct (negb (Game.game_over g1)); try reflexivity.
  destruct (Snake.move (Game.snake g1)); reflexivity.
Qed.

Lemma spawn_food_ok (w : World) :
  exists p w',
    Food.spawn_food w = Ok (p, w') /\ in_grid p /\ queue w' = queue w.
Proof.
  unfold Food.spawn_food, bind, randint, ret.
  rewrite GRID_WIDTH_eq, GRID_HEIGHT_eq.
  change (29 <? 0) with false. change (23 <? 0) with false.
  cbn [entropy cursor queue].
  eexists; eexists; split; [reflexivity|]. split; [|reflexivity].
  unfold in_grid. rewrite GRID_WIDTH_eq, GRID_HEIGHT_eq.
  cbn [fst snd entropy cursor].
  change (30 - 1 - 0 + 1) with 30. change (24 - 1 - 0 + 1) with 24.
  pose proof (Z.mod_pos_bound (entropy w (cursor w)) 30 ltac:(lia)).
  pose proof (Z.mod_pos_bound (entropy w (S (cursor w))) 24 ltac:(lia)).
  lia.
Qed.

(* What [_check_collisions] does on a snake with head [h]. *)
Lemma check_collisions_spec (g : Game.t) (w : World) (h : Pos) (rest : list Pos) :
  Snake.body (Game.snake g) = h :: rest ->
  exists g' w',
    Game._check_collisions g w = Ok (g', w') /\
    Snake.body (Game.snake g') = h :: rest /\
    Snake.direction (Game.snake g') = Snake.direction (Game.snake g) /\
    Game.game_over g' = Game.game_over g || Game.hits_wall h || pos_in h rest /\
    Snake.growth_pending (Game.snake g') =
      Snake.growth_pending (Game.snake g) || pos_eqb h (Food.position (Game.food g)) /\
    (h = Food.position (Game.food g) ->
       Game.score g' = Game.score g + 10 /\
       Food.spawn_food w = Ok (Food.position (Game.food g'), w')) /\
    (h <> Food.position (Game.food g) ->
       Game.score g' = Game.score g /\ Game.food g' = Game.food g /\ w' = w).
Proof.
  intros Hb. unfold Game._check_collisions, bind, lift, Snake.get_head_position.
  rewrite Hb.
  destruct (pos_eqb h (Food.position (Game.food g))) eqn:E.
  - destruct (spawn_food_ok w) as (p & w' & Hs & _ & _). rewrite Hs.
    unfold ret. eexists; eexists; split; [reflexivity|].
    apply pos_eqb_eq in E.
    destruct (Game.hits_wall h), (pos_in h rest) eqn:Hin;
      cbn; rewrite ?Hb; cbn; rewrite ?Hin; cbn; rewrite ?Hb, ?orb_true_r, ?orb_false_r;
      repeat split; try reflexivity; try congruence.
  - unfold ret. eexists; eexists; split; [reflexivity|].
    apply pos_eqb_neq in E.
    destruct (Game.hits_wall h), (pos_in h rest) eqn:Hin;
      cbn; rewrite ?Hb; cbn; rewrite ?Hin; cbn; rewrite ?Hb, ?orb_true_r, ?orb_false_r;
      repeat split; try reflexivity; try congruence.
Qed.

(* A round entered while the game runs: the events are applied, the snake
   moves, the collisions are checked; nothing is raised. *)
Lemma running_round (g : Game.t) (w : World) (old : Pos) (tail : list Pos) :
  Game.game_over g = false ->
  Snake.body (Game.snake g) = old :: tail ->
  ~ In QUIT (next_events w) ->
  exists g1 s1 rest g' w',
    Game.handle_all (next_events w) g = Ok g1 /\
    same_but_heading g g1 /\
    Snake.move (Game.snake g1) = Ok s1 /\
    Snake.body s1 = padd old (Snake.direction (Game.snake g1)) :: rest /\
    length (Snake.body s1) =
      ((if Snake.growth_pending (Game.snake g) then 1 else 0) + length (old :: tail))%nat /\
    Snake.growth_pending s1 = false /\
    Game._check_collisions (Game.set_snake g1 s1) (after_poll w) = Ok (g', w') /\
    Game.run_body g w = Ok (g', w').
Proof.
  intros Hrun Hb Hq.
  destruct (handle_all_total _ g Hq) as (g1 & H1).
  pose proof (handle_all_frame _ _ _ H1) as Hf.
  destruct Hf as (Hfb & Hfg & Hff & Hfs & Hfo).
  assert (Hb1 : Snake.body (Game.snake g1) = old :: tail) by congruence.
  destruct (move_cases _ _ _ Hb1) as (s1 & Hm & Hd & Hhd & Hno & Hyes).
  assert (Hs1 : exists rest,
             Snake.body s1 = padd old (Snake.direction (Game.snake g1)) :: rest).
  { destruct (Snake.body s1) as [|x r]; [discriminate Hhd|].
    injection Hhd as ->. eexists; reflexivity. }
  destruct Hs1 as (rest & Hs1).
  assert (Hbs : Snake.body (Game.snake (Game.set_snake g1 s1)) =
                padd old (Snake.direction (Game.snake g1)) :: rest) by exact Hs1.
  destruct (check_collisions_spec _ (after_poll w) _ _ Hbs) as (g' & w' & Hc & _).
  exists g1, s1, rest, g', w'.
  split; [exact H1|]. split; [repeat split; assumption|].
  split; [exact Hm|]. split; [exact Hs1|].
  assert (Hlg : length (Snake.body s1) =
      ((if Snake.growth_pending (Game.snake g) then 1 else 0) + length (old :: tail))%nat
      /\ Snake.growth_pending s1 = false).
  { rewrite <- Hfg, <- Hb1.
    destruct (Snake.growth_pending (Game.snake g1)).
    - destruct (Hyes eq_refl) as (_ & -> & ->). split; reflexivity.
    - destruct (Hno eq_refl) as (_ & -> & ->). split; reflexivity. }
  destruct Hlg as (Hl & Hg).
  split; [exact Hl|]. split; [exact Hg|]. split; [exact Hc|].
  rewrite run_body_unfold, H1, Hfo, Hrun. cbn [negb]. rewrite Hm. exact Hc.
Qed.

(** ** Collisions *)

(** C2: in a round run while the game is not over, the flag is true after
    the round exactly when the head after the move is off the grid or is
    also a later segment of the body; the round returns normally. *)
Theorem game_over_iff_collision (g : Game.t) (w : World) (old : Pos) (tail : list Pos) :
  Game.game_over g = false ->
  Snake.body (Game.snake g) = old :: tail ->
  ~ In QUIT (next_events w) ->
  exists g' w' head,
    Game.run_body g w = Ok (g', w') /\
    Snake.get_head_position (Game.snake g') = Ok head /\
    head = padd old (Snake.direction (Game.snake g')) /\
    (Game.game_over g' = true <->
     ~ in_grid head \/ In head (tl (Snake.body (Game.snake g')))).
Proof.
  intros Hrun Hb Hq.
  destruct (running_round g w old tail Hrun Hb Hq)
    as (g1 & s1 & rest & g' & w' & H1 & Hf & Hm & Hs1 & _ & _ & Hc & Hr).
  destruct Hf as (_ & _ & _ & _ & Hfo).
  destruct (check_collisions_spec (Game.set_snake g1 s1) (after_poll w) _ _ Hs1)
    as (g2 & w2 & Hc2 & Hb2 & Hd2 & Ho2 & _).
  rewrite Hc in Hc2. injection Hc2 as <- <-.
  assert (Hmd : Snake.direction s1 = Snake.direction (Game.snake g1)).
  { destruct (move_cases _ _ _ (eq_trans (proj1 (handle_all_frame _ _ _ H1)) Hb))
      as (s1' & Hm' & Hd' & _). rewrite Hm in Hm'. injection Hm' as <-. exact Hd'. }
  exists g', w', (padd old (Snake.direction (Game.snake g1))).
  split; [exact Hr|].
  split; [unfold Snake.get_head_position; rewrite Hb2; reflexivity|].
  split; [cbn [Game.set_snake Game.snake] in Hd2; congruence|].
  rewrite Ho2, Hb2. cbn [Game.set_snake Game.game_over tl]. rewrite Hfo, Hrun.
  cbn [orb]. rewrite orb_true_iff, hits_wall_spec, pos_in_In. tauto.
Qed.

Lemma game_over_iff_collision_witness :
  exists g' w',
    Game.run_body coiled_game (zero_world [[KEYDOWN K_LEFT]]) = Ok (g', w') /\
    Snake.get_head_position (Game.snake g') = Ok (6, 5) /\
    Game.game_over g' = true.
Proof.
  destruct (game_over_iff_collision coiled_game (zero_world [[KEYDOWN K_LEFT]])
              (5, 5) [(5, 6); (6, 6); (6, 5); (6, 4)] eq_refl eq_refl)
    as (g' & w' & head & Hr & Hh & Hhd & Hiff).
  { cbn. intros [H|[]]; discriminate H. }
  exists g', w'. split; [exact Hr|].
  vm_compute in Hr. injection Hr as <- <-.
  split; reflexivity.
Defined.

(** C3: in a round run while the game is not over, if the head after the
    move is on the food then growth is pending after the round, the score
    is 10 more and the food position is a fresh draw of [spawn_food]; this
    does not depend on what the wall and self tests of the same round do. *)
Theorem food_round (g : Game.t) (w : World) (old : Pos) (tail : list Pos) :
  Game.game_over g = false ->
  Snake.body (Game.snake g) = old :: tail ->
  ~ In QUIT (next_events w) ->
  exists g' w' head,
    Game.run_body g w = Ok (g', w') /\
    Snake.get_head_position (Game.snake g') = Ok head /\
    (head = Food.position (Game.food g) ->
       Snake.growth_pending (Game.snake g') = true /\
       Game.score g' = Game.score g + 10 /\
       Food.spawn_food (after_poll w) = Ok (Food.position (Game.food g'), w')) /\
    (head <> Food.position (Game.food g) ->
       Snake.growth_pending (Game.snake g') = false /\
       Game.score g' = Game.score g /\
       Game.food g' = Game.food g).
Proof.
  intros Hrun Hb Hq.
  destruct (running_round g w old tail Hrun Hb Hq)
    as (g1 & s1 & rest & g' & w' & H1 & Hf & Hm & Hs1 & _ & Hg1 & Hc & Hr).
  destruct Hf as (_ & _ & Hff & Hfs & _).
  destruct (check_collisions_spec (Game.set_snake g1 s1) (after_poll w) _ _ Hs1)
    as (g2 & w2 & Hc2 & Hb2 & _ & _ & Hgp & Hyes & Hno).
  rewrite Hc in Hc2. injection Hc2 as <- <-.
  cbn [Game.set_snake Game.snake Game.food Game.score] in Hgp, Hyes, Hno.
  rewrite Hff, ?Hfs in *. rewrite Hg1 in Hgp. cbn [orb] in Hgp.
  exists g', w', (padd old (Snake.direction (Game.snake g1))).
  split; [exact Hr|].
  split; [unfold Snake.get_head_position; rewrite Hb2; reflexivity|].
  split; intros He.
  - destruct (Hyes He) as (Hsc & Hsp).
    split; [|split; assumption].
    rewrite Hgp. apply pos_eqb_eq. exact He.
  - destruct (Hno He) as (Hsc & Hfo & _).
    split; [|split; assumption].
    rewrite Hgp. apply pos_eqb_neq. exact He.
Qed.

Lemma food_round_witness :
  exists g' w',
    Game.run_body coiled_game (zero_world []) = Ok (g', w') /\
    Snake.growth_pending (Game.snake g') = true /\
    Game.score g' = 40 /\
    Game.game_over g' = true.
Proof.
  destruct (food_round coiled_game (zero_world []) (5, 5)
              [(5, 6); (6, 6); (6, 5); (6, 4)] eq_refl eq_refl)
    as (g' & w' & head & Hr & Hh & Hyes & _).
  { cbn. tauto. }
  exists g', w'. split; [exact Hr|].
  vm_compute in Hr. injection Hr as <- <-.
  repeat split.
Defined.

(** ** Growth at the minimum length *)

(** C8: a snake of one segment that grows and moves along one of the four
    directions has body [new head; old head] with the new head different
    from the old one, so the self test of [_check_collisions] does not
    fire: with the new head on the grid, a game that was running is still
    running after the check. *)
Theorem no_self_hit_at_min_length (g : Game.t) (w : World) (p : Pos) :
  Snake.body (Game.snake g) = [p] ->
  In (Snake.direction (Game.snake g)) directions ->
  exists s',
    Snake.move (Snake.grow (Game.snake g)) = Ok s' /\
    Snake.body s' = [padd p (Snake.direction (Game.snake g)); p] /\
    ~ In (padd p (Snake.direction (Game.snake g))) (tl (Snake.body s')) /\
    pos_in (padd p (Snake.direction (Game.snake g))) (tl (Snake.body s')) = false /\
    (Game.game_over g = false ->
     in_grid (padd p (Snake.direction (Game.snake g))) ->
     exists g' w',
       Game._check_collisions (Game.set_snake g s') w = Ok (g', w') /\
       Game.game_over g' = false).
Proof.
  intros Hb Hd.
  destruct (move_cases (Snake.grow (Game.snake g)) p [] Hb)
    as (s' & Hm & _ & _ & _ & Hyes).
  destruct (Hyes eq_refl) as (Hb' & _ & _).
  cbn [Snake.grow Snake.body Snake.direction] in Hb'. rewrite Hb in Hb'.
  assert (Hne : ~ In (padd p (Snake.direction (Game.snake g))) [p]).
  { intros [H|[]]. destruct p as [x y].
    unfold directions, UP, DOWN, LEFT, RIGHT in Hd.
    destruct Hd as [E|[E|[E|[E|[]]]]]; rewrite <- E in H; cbn in H;
      injection H; lia. }
  exists s'. split; [exact Hm|]. split; [exact Hb'|].
  rewrite Hb'. cbn [tl]. split; [exact Hne|].
  assert (Hnb : pos_in (padd p (Snake.direction (Game.snake g))) [p] = false).
  { destruct (pos_in _ [p]) eqn:E; [|reflexivity].
    apply pos_in_In in E. contradiction. }
  split; [exact Hnb|].
  intros Hrun Hgrid.
  destruct (check_collisions_spec (Game.set_snake g s') w _ _ Hb')
    as (g' & w' & Hc & _ & _ & Ho & _).
  exists g', w'. split; [exact Hc|].
  rewrite Ho, Hnb. cbn [Game.set_snake Game.game_over]. rewrite Hrun.
  destruct (Game.hits_wall _) eqn:Ew; [|reflexivity].
  apply hits_wall_spec in Ew. contradiction.
Qed.

Lemma no_self_hit_at_min_length_witness :
  exists s',
    Snake.move (Snake.grow Snake.init) = Ok s' /\
    Snake.body s' = [(16, 12); (15, 12)] /\
    exists g' w',
      Game._check_collisions
        (Game.set_snake (Game.mk Snake.init (Food.mk (3, 3)) 10 false) s')
        (zero_world []) = Ok (g', w') /\
      Game.game_over g' = false.
Proof.
  destruct (no_self_hit_at_min_length
              (Game.mk Snake.init (Food.mk (3, 3)) 10 false) (zero_world []) (15, 12)
              eq_refl)
    as (s' & Hm & Hb & _ & _ & Hgo).
  { right; right; right; left; reflexivity. }
  exists s'. split; [exact Hm|]. split; [exact Hb|].
  apply Hgo; [reflexivity|].
  unfold in_grid; cbn. lia.
Defined.

(** ** Restart *)

Lemma reset_game_ok (w : World) :
  exists g' w',
    Game.reset_game w = Ok (g', w') /\
    Game.snake g' = Snake.init /\
    Game.score g' = 0 /\
    Game.game_over g' = false /\
    in_grid (Food.position (Game.food g')) /\
    Food.spawn_food w = Ok (Food.position (Game.food g'), w') /\
    queue w' = queue w.
Proof.
  destruct (spawn_food_ok w) as (p & w' & Hs & Hg & Hq).
  unfold Game.reset_game, Food.init, bind, ret. rewrite Hs.
  eexists; eexists; split; [reflexivity|]. cbn.
  do 3 (split; [reflexivity|]). split; [exact Hg|].
  split; [reflexivity|exact Hq].
Qed.

(* The [for] loop of the waiting loop, on a batch without a quit request:
   either no key was pressed and nothing changed, or the state is the one
   a [reset_game] call returned and [waiting] is False. *)
Lemma wait_events_spec (evs : list Event) (g : Game.t) (waiting : bool) (w : World) :
  ~ In QUIT evs ->
  exists g' waiting' w',
    Game.wait_events evs g waiting w = Ok ((g', waiting'), w') /\
    queue w' = queue w /\
    (quiet evs -> g' = g /\ waiting' = waiting /\ w' = w) /\
    (has_key evs -> waiting' = false /\ exists w0, Game.reset_game w0 = Ok (g', w')).
Proof.
  revert g waiting w; induction evs as [|e evs IH]; intros g waiting w Hq.
  - exists g, waiting, w. cbn. unfold ret.
    split; [reflexivity|]. split; [reflexivity|]. split.
    + intros _. repeat split.
    + intros (k & []).
  - destruct e as [|k|].
    + exfalso; apply Hq; left; reflexivity.
    + assert (Hq' : ~ In QUIT evs) by (intros H; apply Hq; right; exact H).
      destruct (reset_game_ok w) as (g0 & w0 & Hr & _ & _ & _ & _ & _ & Hq0).
      destruct (IH g0 false w0 Hq') as (g' & wt' & w' & He & Hqw & Hquiet & Hkey).
      exists g', wt', w'. cbn [Game.wait_events]. unfold bind. rewrite Hr.
      split; [exact He|]. split; [congruence|]. split.
      * intros Hall. specialize (Hall (KEYDOWN k) (or_introl eq_refl)). discriminate.
      * intros _.
        assert (Hcase : quiet evs \/ has_key evs).
        { clear - Hq'. induction evs as [|e evs IH].
          - left; intros e [].
          - destruct e as [|k|].
            + exfalso; apply Hq'; left; reflexivity.
            + right; exists k; left; reflexivity.
            + destruct IH as [H|(k & H)].
              * intros H; apply Hq'; right; exact H.
              * left; intros e [<-|He]; [reflexivity|apply H; exact He].
              * right; exists k; right; exact H. }
        destruct Hcase as [Hall|Hk].
        -- destruct (Hquiet Hall) as (-> & -> & ->).
           split; [reflexivity|]. exists w. exact Hr.
        -- apply Hkey; exact Hk.
    + assert (Hq' : ~ In QUIT evs) by (intros H; apply Hq; right; exact H).
      destruct (IH g waiting w Hq') as (g' & wt' & w' & He & Hqw & Hquiet & Hkey).
      exists g', wt', w'. cbn [Game.wait_events].
      split; [exact He|]. split; [exact Hqw|]. split.
      * intros Hall. apply Hquiet. intros e He'. apply Hall. right; exact He'.
      * intros (k & [Hk|Hk]); [discriminate Hk|]. apply Hkey. exists k; exact Hk.
Qed.

(* The waiting loop ends at the first batch with a key press, in a state
   returned by [reset_game]. *)
Lemma key_press_restarts_aux (g : Game.t) (w : World)
    (pre : list (list Event)) (evs : list Event) (rest : list (list Event)) :
  queue w = pre ++ evs :: rest ->
  Forall quiet pre ->
  has_key evs ->
  ~ In QUIT evs ->
  exists g' w',
    Game._display_game_over g w = Ok (g', w') /\
    queue w' = rest /\
    exists w0, Game.reset_game w0 = Ok (g', w').
Proof.
  unfold Game._display_game_over.
  destruct w as [e c q]; cbn [queue entropy cursor]. intros ->.
  induction pre as [|b pre IH]; intros Hpre Hk Hq; cbn [app Game.wait_loop].
  - destruct (wait_events_spec evs g true (mkWorld e c rest) Hq)
      as (g' & wt' & w' & He & Hqw & _ & Hkey).
    destruct (Hkey Hk) as (-> & w0 & Hr).
    rewrite He. exists g', w'. split; [reflexivity|]. split; [exact Hqw|].
    exists w0; exact Hr.
  - inversion Hpre as [|b' pre' Hb Hpre']; subst.
    assert (Hnq : ~ In QUIT b) by (intros H; apply Hb in H; discriminate H).
    destruct (wait_events_spec b g true (mkWorld e c (pre ++ evs :: rest)) Hnq)
      as (g' & wt' & w' & He & _ & Hquiet & _).
    destruct (Hquiet Hb) as (-> & -> & ->).
    rewrite He. cbn [entropy cursor]. apply IH; assumption.
Qed.

(* In the waiting loop of the game-over screen the first batch that holds
   a key press (and no quit request) ends the wait with the state a
   [reset_game] call returns. *)
Lemma wait_loop_restarts (g : Game.t) (w : World)
    (pre : list (list Event)) (evs : list Event) (rest : list (list Event)) :
  queue w = pre ++ evs :: rest ->
  Forall quiet pre ->
  has_key evs ->
  ~ In QUIT evs ->
  exists g' w',
    Game._display_game_over g w = Ok (g', w') /\
    queue w' = rest /\
    Game.score g' = 0 /\
    Snake.body (Game.snake g') = [(15, 12)] /\
    Snake.direction (Game.snake g') = RIGHT /\
    Snake.growth_pending (Game.snake g') = false /\
    Game.game_over g' = false /\
    in_grid (Food.position (Game.food g')) /\
    exists w0,
      Game.reset_game w0 = Ok (g', w') /\
      Food.spawn_food w0 = Ok (Food.position (Game.food g'), w').
Proof.
  intros Hqueue Hpre Hk Hq.
  destruct (key_press_restarts_aux g w pre evs rest Hqueue Hpre Hk Hq)
    as (g' & w' & Hd & Hqw & w0 & Hr).
  destruct (reset_game_ok w0) as (g0 & w0' & Hr0 & Hs & Hsc & Hgo & Hgrid & Hsp & _).
  rewrite Hr in Hr0. injection Hr0 as <- <-.
  exists g', w'. split; [exact Hd|]. split; [exact Hqw|].
  rewrite Hs. split; [exact Hsc|]. do 3 (split; [reflexivity|]).
  split; [exact Hgo|]. split; [exact Hgrid|].
  exists w0. split; assumption.
Qed.

(* A whole round entered with the game over: the first batch goes to
   [_handle_events], which resets nothing; the restart comes from the
   waiting loop. *)
Lemma restart_round (g : Game.t) (w : World)
    (first : list Event) (pre : list (list Event)) (evs : list Event)
    (rest : list (list Event)) :
  Game.game_over g = true ->
  queue w = first :: pre ++ evs :: rest ->
  ~ In QUIT first ->
  Forall quiet pre ->
  has_key evs ->
  ~ In QUIT evs ->
  exists g' w',
    Game.run_body g w = Ok (g', w') /\
    queue w' = rest /\
    Game.snake g' = Snake.init /\
    Game.score g' = 0 /\
    Game.game_over g' = false.
Proof.
  intros Hover Hqueue Hq1 Hpre Hk Hq.
  assert (Hn : next_events w = first) by (unfold next_events; now rewrite Hqueue).
  assert (Ha : queue (after_poll w) = pre ++ evs :: rest)
    by (unfold after_poll; cbn; now rewrite Hqueue).
  rewrite <- Hn in Hq1.
  destruct (handle_all_total _ g Hq1) as (g1 & H1).
  destruct (handle_all_frame _ _ _ H1) as (_ & _ & _ & _ & Hfo).
  destruct (key_press_restarts_aux g1 (after_poll w) pre evs rest Ha Hpre Hk Hq)
    as (g' & w' & Hd & Hqw & w0 & Hr).
  destruct (reset_game_ok w0) as (g0 & w0' & Hr0 & Hs & Hsc & Hgo & _).
  rewrite Hr in Hr0. injection Hr0 as <- <-.
  exists g', w'. rewrite run_body_unfold, H1, Hfo, Hover. cbn [negb].
  repeat split; assumption.
Qed.

(** C9, as the code has it: in a round entered with the game over, the
    batch polled by [_handle_events] resets nothing, key presses included:
    the flag stays set and the score stays; the restart comes from the
    waiting loop of the game-over screen, at the first batch polled there
    that holds a key press (any key; no quit request in the batch).  The
    round then ends in the state a [reset_game] call returns: score 0, a
    new snake [(15,12)] heading RIGHT, a freshly drawn food on the grid and
    the game-over flag false. *)
Theorem key_press_restarts (g : Game.t) (w : World)
    (first : list Event) (pre : list (list Event)) (evs : list Event)
    (rest : list (list Event)) :
  Game.game_over g = true ->
  queue w = first :: pre ++ evs :: rest ->
  ~ In QUIT first ->
  Forall quiet pre ->
  has_key evs ->
  ~ In QUIT evs ->
  exists g1 g' w',
    Game._handle_events g w = Ok (g1, after_poll w) /\
    Game.game_over g1 = true /\
    Game.score g1 = Game.score g /\
    Snake.body (Game.snake g1) = Snake.body (Game.snake g) /\
    Game.food g1 = Game.food g /\
    Game._display_game_over g1 (after_poll w) = Ok (g', w') /\
    Game.run_body g w = Ok (g', w') /\
    queue w' = rest /\
    Game.score g' = 0 /\
    Snake.body (Game.snake g') = [(15, 12)] /\
    Snake.direction (Game.snake g') = RIGHT /\
    Snake.growth_pending (Game.snake g') = false /\
    Game.game_over g' = false /\
    in_grid (Food.position (Game.food g')) /\
    exists w0,
      Game.reset_game w0 = Ok (g', w') /\
      Food.spawn_food w0 = Ok (Food.position (Game.food g'), w').
Proof.
  intros Hover Hqueue Hq1 Hpre Hk Hq.
  assert (Hn : next_events w = first) by (unfold next_events; now rewrite Hqueue).
  assert (Ha : queue (after_poll w) = pre ++ evs :: rest)
    by (unfold after_poll; cbn; now rewrite Hqueue).
  rewrite <- Hn in Hq1.
  destruct (handle_all_total _ g Hq1) as (g1 & H1).
  destruct (handle_all_frame _ _ _ H1) as (Hfb & _ & Hff & Hfs & Hfo).
  destruct (key_press_restarts_aux g1 (after_poll w) pre evs rest Ha Hpre Hk Hq)
    as (g' & w' & Hd & Hqw & w0 & Hr).
  destruct (reset_game_ok w0) as (g0 & w0' & Hr0 & Hs & Hsc & Hgo & Hgrid & Hsp & _).
  rewrite Hr in Hr0. injection Hr0 as <- <-.
  exists g1, g', w'.
  split.
  { unfold Game._handle_events, bind, lift. rewrite event_get_eq, H1. reflexivity. }
  split; [congruence|]. split; [exact Hfs|]. split; [exact Hfb|].
  split; [exact Hff|]. split; [exact Hd|].
  split.
  { rewrite run_body_unfold, H1, Hfo, Hover. cbn [negb]. exact Hd. }
  split; [exact Hqw|].
  rewrite Hs. split; [exact Hsc|]. do 3 (split; [reflexivity|]).
  split; [exact Hgo|]. split; [exact Hgrid|].
  exists w0. split; assumption.
Qed.

Lemma key_press_restarts_witness :
  exists g1 g' w',
    Game._handle_events dead_game
      (zero_world [[KEYDOWN K_UP]; [OTHER]; [OTHER; KEYDOWN K_OTHER]; [QUIT]])
      = Ok (g1, after_poll
                  (zero_world [[KEYDOWN K_UP]; [OTHER]; [OTHER; KEYDOWN K_OTHER]; [QUIT]])) /\
    Game.game_over g1 = true /\
    Game.score g1 = 20 /\
    Game.run_body dead_game
      (zero_world [[KEYDOWN K_UP]; [OTHER]; [OTHER; KEYDOWN K_OTHER]; [QUIT]])
      = Ok (g', w') /\
    queue w' = [[QUIT]] /\
    Game.score g' = 0 /\
    Snake.body (Game.snake g') = [(15, 12)] /\
    Game.game_over g' = false.
Proof.
  destruct (key_press_restarts dead_game
              (zero_world [[KEYDOWN K_UP]; [OTHER]; [OTHER; KEYDOWN K_OTHER]; [QUIT]])
              [KEYDOWN K_UP] [[OTHER]] [OTHER; KEYDOWN K_OTHER] [[QUIT]]
              eq_refl eq_refl)
    as (g1 & g' & w' & Hh & Ho1 & Hs1 & _ & _ & _ & Hr & Hq & Hs & Hb & _ & _ & Hgo & _).
  - intros [H|[]]; discriminate H.
  - constructor; [|constructor]. intros e [<-|[]]; reflexivity.
  - exists K_OTHER. right; left; reflexivity.
  - intros [H|[H|[]]]; discriminate H.
  - exists g1, g', w'. repeat split; assumption.
Defined.

(** C9 as worded fails: a key press that arrives while the game is over
    but is polled by [_handle_events], before the wait starts, restarts
    nothing.  With the game over and the single batch [KEYDOWN] the round
    never ends: the key is used up as input and the waiting loop gets no
    other. *)
Lemma key_polled_before_wait_does_not_restart :
  ~ any_key_restarts /\
  Game.game_over dead_game = true /\
  has_key [KEYDOWN K_OTHER] /\
  Game._handle_events dead_game (zero_world [[KEYDOWN K_OTHER]])
    = Ok (dead_game, after_poll (zero_world [[KEYDOWN K_OTHER]])) /\
  Game.run_body dead_game (zero_world [[KEYDOWN K_OTHER]]) = Diverge.
Proof.
  split; [|split; [reflexivity|split; [|split; reflexivity]]].
  - intros H.
    destruct (H dead_game (zero_world [[KEYDOWN K_OTHER]]) eq_refl)
      as (g' & w' & Hr & _).
    + exists [KEYDOWN K_OTHER]. split; [left; reflexivity|].
      exists K_OTHER. left; reflexivity.
    + intros evs [<-|[]] [Hq|[]]. discriminate Hq.
    + discriminate Hr.
  - exists K_OTHER. left; reflexivity.
Qed.

(** ** Body length along a run *)

Lemma handle_all_ok_no_quit (evs : list Event) (g g1 : Game.t) :
  Game.handle_all evs g = Ok g1 -> ~ In QUIT evs.
Proof.
  revert g; induction evs as [|e evs IH]; intros g H; [intros []|].
  cbn in H. destruct e as [|k|]; [discriminate H| |];
    (destruct (Game.handle_event g _) as [g0| |] eqn:He; cbn in H; try discriminate H;
     intros [Hin|Hin]; [discriminate Hin|exact (IH _ H Hin)]).
Qed.

(* A completed round of a running game: the length grows by one exactly
   when growth was pending, and growth is pending afterwards exactly when
   the food test succeeded. *)
Lemma running_round_length (g g' : Game.t) (w w' : World) :
  Game.game_over g = false ->
  Game.run_body g w = Ok (g', w') ->
  len g' = ((if Snake.growth_pending (Game.snake g) then 1 else 0) + len g)%nat /\
  (Snake.growth_pending (Game.snake g') = true <-> eats g g').
Proof.
  intros Hrun Hr.
  pose proof Hr as Hr0. rewrite run_body_unfold in Hr0.
  destruct (Game.handle_all (next_events w) g) as [g1| |] eqn:H1; try discriminate Hr0.
  pose proof (handle_all_ok_no_quit _ _ _ H1) as Hq.
  destruct (handle_all_frame _ _ _ H1) as (Hfb & _ & _ & _ & Hfo).
  rewrite Hfo, Hrun in Hr0. cbn [negb] in Hr0.
  destruct (Snake.body (Game.snake g)) as [|old tail] eqn:Hb.
  { unfold Snake.move in Hr0. rewrite Hfb in Hr0. discriminate Hr0. }
  clear Hr0.
  destruct (running_round g w old tail Hrun Hb Hq)
    as (g1' & s1 & rest & g2 & w2 & H1' & Hf & Hm & Hs1 & Hl & Hg1 & Hc & Hr').
  rewrite Hr in Hr'. injection Hr' as <- <-.
  destruct Hf as (_ & _ & Hff & _ & _).
  destruct (check_collisions_spec (Game.set_snake g1' s1) (after_poll w) _ _ Hs1)
    as (g2 & w2 & Hc2 & Hb2 & _ & _ & Hgp & _).
  rewrite Hc in Hc2. injection Hc2 as <- <-.
  cbn [Game.set_snake Game.snake Game.food] in Hgp.
  rewrite Hg1, Hff in Hgp. cbn [orb] in Hgp.
  split.
  - unfold len. rewrite Hb2, <- Hs1, Hl, Hb. reflexivity.
  - unfold eats, Snake.get_head_position. rewrite Hb2, Hgp, pos_eqb_eq.
    split; [intros ->; reflexivity|intros [= ->]; reflexivity].
Qed.

(* How the [for] loop of the waiting loop can end. *)
Lemma wait_events_inv (evs : list Event) (g g' : Game.t) (wt wt' : bool) (w w' : World) :
  Game.wait_events evs g wt w = Ok ((g', wt'), w') ->
  (g' = g /\ wt' = wt) \/
  (wt' = false /\ Game.snake g' = Snake.init /\
   Game.score g' = 0 /\ Game.game_over g' = false).
Proof.
  revert g wt w; induction evs as [|e evs IH]; intros g wt w H.
  - unfold Game.wait_events, ret in H. injection H as <- <- <-.
    left; split; reflexivity.
  - destruct e as [|k|]; cbn [Game.wait_events] in H.
    + discriminate H.
    + unfold bind in H.
      destruct (reset_game_ok w) as (g0 & w0 & Hr & Hs & Hsc & Hgo & _).
      rewrite Hr in H.
      destruct (IH _ _ _ H) as [(-> & ->)|Hres]; right; [|exact Hres].
      repeat split; assumption.
    + apply IH in H. exact H.
Qed.

Lemma wait_loop_inv (q : list (list Event)) (g g' : Game.t)
    (e : nat -> Z) (c : nat) (w' : World) :
  Game.wait_loop q g e c = Ok (g', w') ->
  Game.snake g' = Snake.init /\ Game.score g' = 0 /\ Game.game_over g' = false.
Proof.
  revert g e c; induction q as [|evs q IH]; intros g e c H; [discriminate H|].
  cbn [Game.wait_loop] in H.
  destruct (Game.wait_events evs g true _) as [[[g1 wt] w1]| |] eqn:He;
    try discriminate H.
  destruct (wait_events_inv _ _ _ _ _ _ _ He) as [(-> & ->)|(-> & Hres)].
  - exact (IH _ _ _ H).
  - injection H as <- <-. exact Hres.
Qed.

(* A completed round entered with the game over leaves a new snake. *)
Lemma game_over_round (g g' : Game.t) (w w' : World) :
  Game.game_over g = true ->
  Game.run_body g w = Ok (g', w') ->
  Game.snake g' = Snake.init /\ Game.score g' = 0 /\ Game.game_over g' = false.
Proof.
  intros Hover Hr. rewrite run_body_unfold in Hr.
  destruct (Game.handle_all (next_events w) g) as [g1| |] eqn:H1; try discriminate Hr.
  destruct (handle_all_frame _ _ _ H1) as (_ & _ & _ & _ & Hfo).
  rewrite Hfo, Hover in Hr. cbn [negb] in Hr.
  unfold Game._display_game_over in Hr.
  exact (wait_loop_inv _ _ _ _ _ _ Hr).
Qed.

(* Neighbours in a trace are the two ends of one round. *)
Lemma run_trace_step (n : nat) (g : Game.t) (w : World)
    (pre : list Game.t) (a b : Game.t) (post : list Game.t) :
  g :: Game.run_trace n g w = pre ++ a :: b :: post ->
  exists wa wb, Game.run_body a wa = Ok (b, wb).
Proof.
  revert g w pre; induction n as [|n IH]; intros g w pre H.
  - cbn in H. destruct pre as [|x [|y pre]]; discriminate H.
  - cbn [Game.run_trace] in H.
    destruct (Game.run_body g w) as [[g1 w1]| |] eqn:Hr.
    + destruct pre as [|x pre].
      * cbn in H. injection H as -> -> _. exists w, w1. exact Hr.
      * cbn in H. injection H as _ H. exact (IH _ _ _ H).
    + destruct pre as [|x [|y pre]]; discriminate H.
    + destruct pre as [|x [|y pre]]; discriminate H.
Qed.

(* The body is never empty after a completed round, so [move] and
   [get_head_position] never raise along a run. *)
Lemma round_body_nonempty (g g' : Game.t) (w w' : World) :
  Game.run_body g w = Ok (g', w') -> Snake.body (Game.snake g') <> [].
Proof.
  intros Hr. destruct (Game.game_over g) eqn:Hover.
  - destruct (game_over_round g g' w w' Hover Hr) as (-> & _). discriminate.
  - pose proof Hr as Hr0. rewrite run_body_unfold in Hr0.
    destruct (Game.handle_all (next_events w) g) as [g1| |] eqn:H1;
      try discriminate Hr0.
    pose proof (handle_all_ok_no_quit _ _ _ H1) as Hq.
    destruct (handle_all_frame _ _ _ H1) as (Hfb & _ & _ & _ & Hfo).
    rewrite Hfo, Hover in Hr0. cbn [negb] in Hr0.
    destruct (Snake.body (Game.snake g)) as [|old tail] eqn:Hb.
    { unfold Snake.move in Hr0. rewrite Hfb in Hr0. discriminate Hr0. }
    destruct (running_round g w old tail Hover Hb Hq)
      as (g1' & s1 & rest & g2 & w2 & _ & _ & _ & Hs1 & _ & _ & Hc & Hr').
    rewrite Hr in Hr'. injection Hr' as <- <-.
    destruct (check_collisions_spec (Game.set_snake g1' s1) (after_poll w) _ _ Hs1)
      as (g2 & w2 & Hc2 & Hb2 & _).
    rewrite Hc in Hc2. injection Hc2 as <- <-.
    rewrite Hb2. discriminate.
Qed.

Lemma run_trace_body_nonempty (n : nat) (g : Game.t) (w : World) (x : Game.t) :
  In x (Game.run_trace n g w) -> Snake.body (Game.snake x) <> [].
Proof.
  revert g w; induction n as [|n IH]; intros g w Hin; [destruct Hin|].
  cbn [Game.run_trace] in Hin.
  destruct (Game.run_body g w) as [[g1 w1]| |] eqn:Hr; try destruct Hin.
  - subst x. exact (round_body_nonempty _ _ _ _ Hr).
  - eapply IH; eassumption.
Qed.

(** X17: all along a run the body of the snake is never empty. *)
Lemma main_trace_body_nonempty (n : nat) (w : World) (x : Game.t) :
  In x (Game.main_trace n w) -> Snake.body (Game.snake x) <> [].
Proof.
  unfold Game.main_trace, Game.init.
  destruct (reset_game_ok w) as (g & w0 & Hr & Hs & _). rewrite Hr.
  intros [<-|Hin].
  - rewrite Hs. discriminate.
  - exact (run_trace_body_nonempty _ _ _ _ Hin).
Qed.

(** C7, as the code has it: along any run of the game, whatever the key
    input, a round of a running game leaves the body length as it is or
    makes it exactly one longer; and it makes it longer exactly when the
    round before it was a round of a running game whose food test
    succeeded.  Growth shows one round after the food is eaten. *)
Theorem growth_follows_eating (n : nat) (w : World)
    (pre : list Game.t) (g1 g2 : Game.t) (post : list Game.t) :
  Game.main_trace n w = pre ++ g1 :: g2 :: post ->
  Game.game_over g1 = false ->
  (len g2 = len g1 \/ len g2 = S (len g1)) /\
  (len g2 <> len g1 <->
   exists pre' g0,
     pre = pre' ++ [g0] /\ Game.game_over g0 = false /\ eats g0 g1).
Proof.
  intros Htr Hrun. unfold Game.main_trace in Htr.
  destruct (Game.init w) as [[g w0]| |] eqn:Hi;
    try (destruct pre; discriminate Htr).
  destruct (run_trace_step n g w0 pre g1 g2 post Htr) as (w1 & w2 & Hstep).
  destruct (running_round_length g1 g2 w1 w2 Hrun Hstep) as (Hlen & _).
  split.
  { destruct (Snake.growth_pending (Game.snake g1)); [right|left]; exact Hlen. }
  split.
  - intros Hne.
    assert (Hp : Snake.growth_pending (Game.snake g1) = true).
    { destruct (Snake.growth_pending (Game.snake g1)); [reflexivity|].
      exfalso; apply Hne; exact Hlen. }
    destruct (exists_last (l := pre)) as (pre' & g0 & ->).
    { intros ->. cbn in Htr. injection Htr as <- _.
      unfold Game.init in Hi.
      destruct (reset_game_ok w) as (gi & wi & Hri & Hs & _).
      rewrite Hri in Hi. injection Hi as <- <-.
      rewrite Hs in Hp. discriminate Hp. }
    exists pre', g0. split; [reflexivity|].
    rewrite <- app_assoc in Htr. cbn [app] in Htr.
    destruct (run_trace_step n g w0 pre' g0 g1 (g2 :: post) Htr) as (wa & wb & Hs0).
    destruct (Game.game_over g0) eqn:Hover.
    + destruct (game_over_round g0 g1 wa wb Hover Hs0) as (Hs & _).
      rewrite Hs in Hp. discriminate Hp.
    + split; [reflexivity|].
      apply (running_round_length g0 g1 wa wb Hover Hs0). exact Hp.
  - intros (pre' & g0 & -> & Hover & He).
    rewrite <- app_assoc in Htr. cbn [app] in Htr.
    destruct (run_trace_step n g w0 pre' g0 g1 (g2 :: post) Htr) as (wa & wb & Hs0).
    apply (running_round_length g0 g1 wa wb Hover Hs0) in He.
    rewrite He in Hlen. cbn in Hlen. lia.
Qed.

Lemma growth_follows_eating_witness :
  let g0 := Game.mk Snake.init (Food.mk (16, 12)) 0 false in
  let g1 := Game.mk (Snake.mk [(16, 12)] RIGHT true) (Food.mk (0, 0)) 10 false in
  let g2 := Game.mk (Snake.mk [(17, 12); (16, 12)] RIGHT false)
                    (Food.mk (0, 0)) 10 false in
  Game.main_trace 2 quiet_world = [g0] ++ g1 :: g2 :: [] /\
  Game.game_over g1 = false /\
  (len g2 = len g1 \/ len g2 = S (len g1)) /\
  (len g2 <> len g1 <->
   exists pre' g0',
     [g0] = pre' ++ [g0'] /\ Game.game_over g0' = false /\ eats g0' g1).
Proof.
  intros g0 g1 g2.
  split; [reflexivity|]. split; [reflexivity|].
  apply (growth_follows_eating 2 quiet_world [g0] g1 g2 []); reflexivity.
Defined.

(** C7 as worded fails: with no input at all, the first round of
    [quiet_world] eats the food at (16,12) and leaves the length at 1; the
    second round makes the length 2 although its food test fails: the food
    is at (0,0) through the whole round, the head at (16,12) before the move
    and at (17,12) after it. *)
Lemma growth_not_on_eating_round :
  ~ grows_only_when_eating (Game.main_trace 2 quiet_world) /\
  exists g0 g1 g2,
    Game.main_trace 2 quiet_world = [g0; g1; g2] /\
    queue quiet_world = [] /\
    Game.game_over g1 = false /\
    len g1 = len g0 /\
    len g2 = S (len g1) /\
    Snake.get_head_position (Game.snake g1) = Ok (16, 12) /\
    Snake.get_head_position (Game.snake g2) = Ok (17, 12) /\
    Game.food g1 = Food.mk (0, 0) /\
    Game.food g2 = Food.mk (0, 0).
Proof.
  split.
  - intros H.
    specialize (H [Game.mk Snake.init (Food.mk (16, 12)) 0 false]
                  (Game.mk (Snake.mk [(16, 12)] RIGHT true) (Food.mk (0, 0)) 10 false)
                  (Game.mk (Snake.mk [(17, 12); (16, 12)] RIGHT false)
                           (Food.mk (0, 0)) 10 false)
                  [] eq_refl eq_refl).
    destruct H as (_ & H).
    destruct H as (_ & He); [cbn; lia|].
    unfold eats in He. cbn in He. discriminate He.
  - do 3 eexists. split; [reflexivity|]. cbn. repeat split.
Qed.

(* A key pressed before the wait starts does not restart the game: the
   round that enters the game-over screen first hands the pending events to
   [_handle_events]; with no later key press the wait never ends. *)
Lemma key_before_wait_is_handled_as_input :
  Game.run_body dead_game (zero_world [[KEYDOWN K_OTHER]]) = Diverge /\
  exists g' w',
    Game.run_body dead_game (zero_world [[KEYDOWN K_OTHER]; [KEYDOWN K_OTHER]])
      = Ok (g', w') /\
    Game.snake g' = Snake.init /\ Game.score g' = 0 /\ Game.game_over g' = false.
Proof.
  split; [reflexivity|].
  do 2 eexists. split; [reflexivity|]. repeat split.
Qed.

(** * Further properties of the code *)

(** ** What a completed round can be *)

Lemma wait_events_reset (evs : list Event) (g g' : Game.t) (wt wt' : bool) (w w' : World) :
  Game.wait_events evs g wt w = Ok ((g', wt'), w') ->
  (g' = g /\ wt' = wt /\ w' = w) \/
  (wt' = false /\ exists w0, Game.reset_game w0 = Ok (g', w')).
Proof.
  revert g wt w; induction evs as [|e evs IH]; intros g wt w H.
  - unfold Game.wait_events, ret in H. injection H as <- <- <-.
    left; repeat split.
  - destruct e as [|k|]; cbn [Game.wait_events] in H.
    + discriminate H.
    + unfold bind in H.
      destruct (Game.reset_game w) as [[g0 w0]| |] eqn:Hr; try discriminate H.
      destruct (IH _ _ _ H) as [(-> & -> & ->)|Hres]; right; [|exact Hres].
      split; [reflexivity|]. exists w; exact Hr.
    + exact (IH _ _ _ H).
Qed.

Lemma wait_loop_reset (q : list (list Event)) (g g' : Game.t)
    (e : nat -> Z) (c : nat) (w' : World) :
  Game.wait_loop q g e c = Ok (g', w') ->
  exists w0, Game.reset_game w0 = Ok (g', w').
Proof.
  revert g e c; induction q as [|evs q IH]; intros g e c H; [discriminate H|].
  cbn [Game.wait_loop] in H.
  destruct (Game.wait_events evs g true _) as [[[g1 wt] w1]| |] eqn:He;
    try discriminate H.
  destruct (wait_events_reset _ _ _ _ _ _ _ He) as [(-> & -> & ->)|(-> & Hres)].
  - exact (IH _ _ _ H).
  - injection H as <- <-. exact Hres.
Qed.

(* A completed round entered with the game over ends in a state returned
   by [reset_game]. *)
Lemma game_over_round_reset (g g' : Game.t) (w w' : World) :
  Game.game_over g = true ->
  Game.run_body g w = Ok (g', w') ->
  exists w0, Game.reset_game w0 = Ok (g', w').
Proof.
  intros Hover Hr. rewrite run_body_unfold in Hr.
  destruct (Game.handle_all (next_events w) g) as [g1| |] eqn:H1; try discriminate Hr.
  destruct (handle_all_frame _ _ _ H1) as (_ & _ & _ & _ & Hfo).
  rewrite Hfo, Hover in Hr. cbn [negb] in Hr.
  exact (wait_loop_reset _ _ _ _ _ _ Hr).
Qed.

(* A completed round of a running game, field by field. *)
Lemma running_round_inv (g g' : Game.t) (w w' : World) :
  Game.game_over g = false ->
  Game.run_body g w = Ok (g', w') ->
  exists g1 old tail,
    Game.handle_all (next_events w) g = Ok g1 /\
    Snake.body (Game.snake g) = old :: tail /\
    Snake.body (Game.snake g') =
      padd old (Snake.direction (Game.snake g1)) ::
      (if Snake.growth_pending (Game.snake g) then old :: tail
       else removelast (old :: tail)) /\
    Snake.direction (Game.snake g') = Snake.direction (Game.snake g1) /\
    Snake.growth_pending (Game.snake g') =
      pos_eqb (padd old (Snake.direction (Game.snake g1)))
              (Food.position (Game.food g)) /\
    Game.game_over g' =
      Game.hits_wall (padd old (Snake.direction (Game.snake g1))) ||
      pos_in (padd old (Snake.direction (Game.snake g1)))
             (tl (Snake.body (Game.snake g'))) /\
    (padd old (Snake.direction (Game.snake g1)) = Food.position (Game.food g) ->
       Game.score g' = Game.score g + 10 /\
       in_grid (Food.position (Game.food g'))) /\
    (padd old (Snake.direction (Game.snake g1)) <> Food.position (Game.food g) ->
       Game.score g' = Game.score g /\ Game.food g' = Game.food g).
Proof.
  intros Hrun Hr. rewrite run_body_unfold in Hr.
  destruct (Game.handle_all (next_events w) g) as [g1| |] eqn:H1; try discriminate Hr.
  destruct (handle_all_frame _ _ _ H1) as (Hfb & Hfg & Hff & Hfs & Hfo).
  rewrite Hfo, Hrun in Hr. cbn [negb] in Hr.
  destruct (Snake.body (Game.snake g)) as [|old tail] eqn:Hb.
  { unfold Snake.move in Hr. rewrite Hfb in Hr. discriminate Hr. }
  rewrite (move_eq _ old tail Hfb) in Hr.
  rewrite Hfg, Hfb in Hr.
  match type of Hr with
  | Game._check_collisions ?x _ = _ =>
      destruct (check_collisions_spec x (after_poll w) _ _ eq_refl)
        as (g2 & w2 & Hc & Hb2 & Hd2 & Ho2 & Hgp & Hyes & Hno)
  end.
  rewrite Hr in Hc. injection Hc as <- <-.
  cbn [Game.set_snake Game.snake Game.food Game.score Game.game_over
       Snake.body Snake.direction Snake.growth_pending] in *.
  rewrite Hff, Hfs, Hfo, Hrun in *. cbn [orb] in *.
  exists g1, old, tail.
  split; [reflexivity|]. split; [reflexivity|]. split; [exact Hb2|].
  split; [exact Hd2|]. split; [exact Hgp|].
  split; [rewrite Hb2; exact Ho2|]. split.
  - intros He. destruct (Hyes He) as (Hsc & Hsp). split; [exact Hsc|].
    destruct (spawn_food_ok (after_poll w)) as (p & wp & Hs & Hg & _).
    rewrite Hs in Hsp. injection Hsp as -> _. exact Hg.
  - intros He. destruct (Hno He) as (Hsc & Hfd & _). split; assumption.
Qed.

(* A property of the state after [__init__] that every completed round
   keeps holds all along [Game().run()]. *)
Lemma main_trace_invariant (P : Game.t -> Prop) :
  (forall w g w', Game.init w = Ok (g, w') -> P g) ->
  (forall g w g' w', P g -> Game.run_body g w = Ok (g', w') -> P g') ->
  forall n w x, In x (Game.main_trace n w) -> P x.
Proof.
  intros Hinit Hstep.
  assert (Htr : forall n g w x, P g -> In x (Game.run_trace n g w) -> P x).
  { induction n as [|n IH]; intros g w x Hg Hin; [destruct Hin|].
    cbn [Game.run_trace] in Hin.
    destruct (Game.run_body g w) as [[g1 w1]| |] eqn:Hr; try destruct Hin.
    - subst x. exact (Hstep _ _ _ _ Hg Hr).
    - exact (IH _ _ _ (Hstep _ _ _ _ Hg Hr) H). }
  intros n w x. unfold Game.main_trace.
  destruct (Game.init w) as [[g w0]| |] eqn:Hi.
  - intros [<-|Hin]; [exact (Hinit _ _ _ Hi)|].
    exact (Htr _ _ _ _ (Hinit _ _ _ Hi) Hin).
  - intros [].
  - intros [].
Qed.

(** ** Invariants of a run *)

Lemma change_direction_choice (s : Snake.t) (d : Pos) :
  Snake.direction (Snake.change_direction s d) = d \/
  Snake.direction (Snake.change_direction s d) = Snake.direction s.
Proof.
  unfold Snake.change_direction. destruct (negb _); [left|right]; reflexivity.
Qed.

Lemma handle_all_direction (evs : list Event) (g g1 : Game.t) :
  In (Snake.direction (Game.snake g)) directions ->
  Game.handle_all evs g = Ok g1 ->
  In (Snake.direction (Game.snake g1)) directions.
Proof.
  revert g; induction evs as [|e evs IH]; intros g Hd H.
  - cbn in H. injection H as <-. exact Hd.
  - cbn [Game.handle_all] in H.
    destruct (Game.handle_event g e) as [g0| |] eqn:He; cbn [obind] in H;
      try discriminate H.
    apply (IH g0); [|exact H].
    destruct e as [|[]|]; cbn in He; try discriminate He;
      injection He as <-; cbn [Game.set_snake Game.snake]; try exact Hd.
    + destruct (change_direction_choice (Game.snake g) UP) as [-> | ->];
        [left; reflexivity|exact Hd].
    + destruct (change_direction_choice (Game.snake g) DOWN) as [-> | ->];
        [right; left; reflexivity|exact Hd].
    + destruct (change_direction_choice (Game.snake g) LEFT) as [-> | ->];
        [right; right; left; reflexivity|exact Hd].
    + destruct (change_direction_choice (Game.snake g) RIGHT) as [-> | ->];
        [right; right; right; left; reflexivity|exact Hd].
Qed.

Lemma reset_state (w : World) (g : Game.t) (w' : World) :
  Game.reset_game w = Ok (g, w') ->
  Game.snake g = Snake.init /\ Game.score g = 0 /\ Game.game_over g = false /\
  in_grid (Food.position (Game.food g)).
Proof.
  intros H. destruct (reset_game_ok w) as (g0 & w0 & Hr & Hs & Hsc & Hgo & Hg & _).
  rewrite Hr in H. injection H as <- <-.
  split; [exact Hs|]. split; [exact Hsc|]. split; [exact Hgo|exact Hg].
Qed.

(* Every completed round leaves a state with the same shape as a reset
   state or as the successor of a running state. *)
Lemma round_cases (g g' : Game.t) (w w' : World) :
  Game.run_body g w = Ok (g', w') ->
  (Game.game_over g = true /\ exists w0, Game.reset_game w0 = Ok (g', w')) \/
  Game.game_over g = false.
Proof.
  intros Hr. destruct (Game.game_over g) eqn:Hover; [left|right; reflexivity].
  split; [reflexivity|]. exact (game_over_round_reset _ _ _ _ Hover Hr).
Qed.

(** X2: all along a run the heading is one of UP, DOWN, LEFT and RIGHT. *)
Theorem heading_is_a_direction (n : nat) (w : World) (x : Game.t) :
  In x (Game.main_trace n w) ->
  In (Snake.direction (Game.snake x)) directions.
Proof.
  revert n w x. apply main_trace_invariant.
  - intros w g w' Hi. destruct (reset_state _ _ _ Hi) as (-> & _).
    right; right; right; left; reflexivity.
  - intros g w g' w' Hd Hr.
    destruct (round_cases _ _ _ _ Hr) as [(_ & w0 & H0)|Hrun].
    + destruct (reset_state _ _ _ H0) as (-> & _).
      right; right; right; left; reflexivity.
    + destruct (running_round_inv _ _ _ _ Hrun Hr)
        as (g1 & old & tail & H1 & _ & _ & -> & _).
      exact (handle_all_direction _ _ _ Hd H1).
Qed.

Lemma heading_is_a_direction_witness :
  In (Snake.direction (Game.snake grown_game)) directions.
Proof.
  apply (heading_is_a_direction 2 quiet_world grown_game).
  right; right; left; reflexivity.
Defined.

(** X3: all along a run the score is ten times the number of segments
    grown since the last reset, counting the one growth still pending:
    score = 10 * (length - 1 + pending). *)
Theorem score_counts_growth (n : nat) (w : World) (x : Game.t) :
  In x (Game.main_trace n w) -> score_matches_length x.
Proof.
  revert n w x. apply main_trace_invariant.
  - intros w g w' Hi. destruct (reset_state _ _ _ Hi) as (Hs & Hsc & _).
    unfold score_matches_length, len. rewrite Hs, Hsc. reflexivity.
  - intros g w g' w' Hinv Hr.
    destruct (round_cases _ _ _ _ Hr) as [(_ & w0 & H0)|Hrun].
    + destruct (reset_state _ _ _ H0) as (Hs & Hsc & _).
      unfold score_matches_length, len. rewrite Hs, Hsc. reflexivity.
    + destruct (running_round_inv _ _ _ _ Hrun Hr)
        as (g1 & old & tail & _ & Hb & Hb' & _ & Hgp & _ & Hyes & Hno).
      unfold score_matches_length, len in *. rewrite Hb', Hgp. rewrite Hb in Hinv.
      destruct (pos_eqb _ _) eqn:E.
      * apply pos_eqb_eq in E. destruct (Hyes E) as (-> & _). rewrite Hinv.
        destruct (Snake.growth_pending (Game.snake g)); cbn [length].
        -- lia.
        -- rewrite length_removelast_cons. cbn [length]. lia.
      * apply pos_eqb_neq in E. destruct (Hno E) as (-> & _). rewrite Hinv.
        destruct (Snake.growth_pending (Game.snake g)); cbn [length].
        -- lia.
        -- rewrite length_removelast_cons. cbn [length]. lia.
Qed.

Lemma score_counts_growth_witness : score_matches_length grown_game.
Proof.
  apply (score_counts_growth 2 quiet_world grown_game).
  right; right; left; reflexivity.
Defined.

(** X4: all along a run the food is on the grid. *)
Theorem food_stays_on_grid (n : nat) (w : World) (x : Game.t) :
  In x (Game.main_trace n w) -> in_grid (Food.position (Game.food x)).
Proof.
  revert n w x. apply main_trace_invariant.
  - intros w g w' Hi. apply (reset_state _ _ _ Hi).
  - intros g w g' w' Hinv Hr.
    destruct (round_cases _ _ _ _ Hr) as [(_ & w0 & H0)|Hrun].
    + apply (reset_state _ _ _ H0).
    + destruct (running_round_inv _ _ _ _ Hrun Hr)
        as (g1 & old & tail & _ & _ & _ & _ & _ & _ & Hyes & Hno).
      destruct (pos_eqb (padd old (Snake.direction (Game.snake g1)))
                        (Food.position (Game.food g))) eqn:E.
      * apply pos_eqb_eq in E. apply (Hyes E).
      * apply pos_eqb_neq in E. destruct (Hno E) as (_ & ->). exact Hinv.
Qed.

Lemma food_stays_on_grid_witness :
  in_grid (Food.position (Game.food grown_game)).
Proof.
  apply (food_stays_on_grid 2 quiet_world grown_game).
  right; right; left; reflexivity.
Defined.

Lemma In_removelast {A} (x : A) (l : list A) : In x (removelast l) -> In x l.
Proof.
  induction l as [|a l IH]; [intros []|].
  destruct l as [|b l]; [intros []|].
  change (removelast (a :: b :: l)) with (a :: removelast (b :: l)).
  intros [->|H]; [left; reflexivity|right; exact (IH H)].
Qed.

Lemma hits_wall_false (p : Pos) : Game.hits_wall p = false -> in_grid p.
Proof.
  intros H. destruct (Game.hits_wall p) eqn:E; [discriminate H|].
  unfold Game.hits_wall in E. unfold in_grid.
  rewrite !orb_false_iff, !Z.ltb_ge in E.
  destruct E as (((H1 & H2) & H3) & H4).
  rewrite Z.geb_leb, Z.leb_gt in H2, H4. lia.
Qed.

(** X5: all along a run, as long as the game is not over every segment of
    the body is on the grid. *)
Theorem running_body_on_grid (n : nat) (w : World) (x : Game.t) :
  In x (Game.main_trace n w) ->
  Game.game_over x = false ->
  Forall in_grid (Snake.body (Game.snake x)).
Proof.
  revert n w x.
  apply (main_trace_invariant
           (fun x => Game.game_over x = false ->
                     Forall in_grid (Snake.body (Game.snake x)))).
  - intros w g w' Hi _. destruct (reset_state _ _ _ Hi) as (-> & _).
    constructor; [|constructor]. unfold in_grid; cbn. lia.
  - intros g w g' w' Hinv Hr Hrun'.
    destruct (round_cases _ _ _ _ Hr) as [(_ & w0 & H0)|Hrun].
    + destruct (reset_state _ _ _ H0) as (-> & _).
      constructor; [|constructor]. unfold in_grid; cbn. lia.
    + destruct (running_round_inv _ _ _ _ Hrun Hr)
        as (g1 & old & tail & _ & Hb & Hb' & _ & _ & Ho & _).
      specialize (Hinv Hrun). rewrite Hb in Hinv.
      rewrite Hrun' in Ho. symmetry in Ho. apply orb_false_iff in Ho.
      destruct Ho as (Hw & _).
      rewrite Hb'. constructor.
      * exact (hits_wall_false _ Hw).
      * destruct (Snake.growth_pending (Game.snake g)); [exact Hinv|].
        apply Forall_forall. intros p Hp. apply In_removelast in Hp.
        rewrite Forall_forall in Hinv. exact (Hinv p Hp).
Qed.

Lemma running_body_on_grid_witness :
  Forall in_grid (Snake.body (Game.snake grown_game)).
Proof.
  apply (running_body_on_grid 2 quiet_world grown_game).
  - right; right; left; reflexivity.
  - reflexivity.
Defined.

Lemma chain_removelast (l : list Pos) : chain l -> chain (removelast l).
Proof.
  induction l as [|p l IH]; [intros H; exact H|].
  destruct l as [|q l]; [intros _; exact I|].
  destruct l as [|r l]; [intros _; exact I|].
  intros (Hpq & Hc).
  change (removelast (p :: q :: r :: l)) with (p :: q :: removelast (r :: l)).
  split; [exact Hpq|]. exact (IH Hc).
Qed.

Lemma step_adjacent (p d : Pos) : In d directions -> adjacent (padd p d) p.
Proof.
  destruct p as [x y]. unfold directions, UP, DOWN, LEFT, RIGHT, adjacent.
  intros [<-|[<-|[<-|[<-|[]]]]]; cbn; lia.
Qed.

(* Heading and shape of the body, kept together by every round. *)
Lemma heading_and_chain (n : nat) (w : World) (x : Game.t) :
  In x (Game.main_trace n w) ->
  In (Snake.direction (Game.snake x)) directions /\
  chain (Snake.body (Game.snake x)).
Proof.
  revert n w x. apply main_trace_invariant.
  - intros w g w' Hi. destruct (reset_state _ _ _ Hi) as (-> & _).
    split; [right; right; right; left; reflexivity|exact I].
  - intros g w g' w' (Hd & Hc) Hr.
    destruct (round_cases _ _ _ _ Hr) as [(_ & w0 & H0)|Hrun].
    + destruct (reset_state _ _ _ H0) as (-> & _).
      split; [right; right; right; left; reflexivity|exact I].
    + destruct (running_round_inv _ _ _ _ Hrun Hr)
        as (g1 & old & tail & H1 & Hb & Hb' & Hd' & _).
      pose proof (handle_all_direction _ _ _ Hd H1) as Hd1.
      split; [rewrite Hd'; exact Hd1|].
      rewrite Hb', <- Hb.
      pose proof (step_adjacent old _ Hd1) as Hadj.
      destruct (Snake.growth_pending (Game.snake g)).
      * rewrite Hb. split; [exact Hadj|]. rewrite <- Hb. exact Hc.
      * pose proof (chain_removelast _ Hc) as Hc'. rewrite Hb in Hc' |- *.
        destruct tail as [|t tail]; [exact I|].
        change (removelast (old :: t :: tail)) with (old :: removelast (t :: tail))
          in Hc' |- *.
        split; [exact Hadj|exact Hc'].
Qed.

(** X6: all along a run every segment of the body shares a side with the
    next one. *)
Theorem body_is_a_chain (n : nat) (w : World) (x : Game.t) :
  In x (Game.main_trace n w) -> chain (Snake.body (Game.snake x)).
Proof.
  intros Hin. exact (proj2 (heading_and_chain n w x Hin)).
Qed.

Lemma body_is_a_chain_witness : chain (Snake.body (Game.snake grown_game)).
Proof.
  apply (body_is_a_chain 2 quiet_world grown_game).
  right; right; left; reflexivity.
Defined.

(** ** What can be raised *)

Lemma handle_all_raises (evs : list Event) (g : Game.t) :
  (In QUIT evs -> Game.handle_all evs g = Raise SystemExit) /\
  (~ In QUIT evs -> exists g1, Game.handle_all evs g = Ok g1).
Proof.
  split; [|apply handle_all_total].
  revert g; induction evs as [|e evs IH]; intros g Hin; [destruct Hin|].
  destruct e as [|k|]; [reflexivity| |].
  - destruct Hin as [Hin|Hin]; [discriminate Hin|].
    cbn [Game.handle_all]. destruct k; cbn [Game.handle_event obind]; exact (IH _ Hin).
  - destruct Hin as [Hin|Hin]; [discriminate Hin|].
    cbn [Game.handle_all Game.handle_event obind]. exact (IH _ Hin).
Qed.

Lemma wait_events_quit (evs : list Event) (g : Game.t) (wt : bool) (w : World) :
  In QUIT evs -> Game.wait_events evs g wt w = Raise SystemExit.
Proof.
  revert g wt w; induction evs as [|e evs IH]; intros g wt w Hin; [destruct Hin|].
  destruct e as [|k|]; [reflexivity| |];
    (destruct Hin as [Hin|Hin]; [discriminate Hin|]); cbn [Game.wait_events].
  - unfold bind. destruct (reset_game_ok w) as (g0 & w0 & -> & _).
    exact (IH _ _ _ Hin).
  - exact (IH _ _ _ Hin).
Qed.

Lemma wait_events_outcome (evs : list Event) (g : Game.t) (wt : bool) (w : World) :
  Game.wait_events evs g wt w = Raise SystemExit \/
  exists r, Game.wait_events evs g wt w = Ok r.
Proof.
  revert g wt w; induction evs as [|e evs IH]; intros g wt w.
  - right. eexists; reflexivity.
  - destruct e as [|k|]; cbn [Game.wait_events].
    + left; reflexivity.
    + unfold bind. destruct (reset_game_ok w) as (g0 & w0 & -> & _). apply IH.
    + apply IH.
Qed.

Lemma wait_loop_raises (q : list (list Event)) (g : Game.t)
    (e : nat -> Z) (c : nat) (x : Exn) :
  Game.wait_loop q g e c = Raise x -> x = SystemExit.
Proof.
  revert g e c; induction q as [|evs q IH]; intros g e c H; [discriminate H|].
  cbn [Game.wait_loop] in H.
  destruct (wait_events_outcome evs g true (mkWorld e c q)) as [Hq|([[g1 wt] w1] & Hk)].
  - rewrite Hq in H. injection H as <-. reflexivity.
  - rewrite Hk in H. destruct wt; [exact (IH _ _ _ H)|discriminate H].
Qed.

(* A round from a state with a body raises nothing but SystemExit. *)
Lemma round_raises (g : Game.t) (w : World) (x : Exn) :
  Snake.body (Game.snake g) <> [] ->
  Game.run_body g w = Raise x -> x = SystemExit.
Proof.
  intros Hne H. rewrite run_body_unfold in H.
  destruct (Game.handle_all (next_events w) g) as [g1| |] eqn:H1.
  - destruct (handle_all_frame _ _ _ H1) as (Hfb & _).
    destruct (negb (Game.game_over g1)).
    + destruct (Snake.body (Game.snake g)) as [|old tail] eqn:Hb; [congruence|].
      rewrite (move_eq _ old tail Hfb) in H.
      match type of H with
      | Game._check_collisions ?y _ = _ =>
          destruct (check_collisions_spec y (after_poll w) _ _ eq_refl)
            as (g2 & w2 & Hc & _)
      end.
      rewrite Hc in H. discriminate H.
    + exact (wait_loop_raises _ _ _ _ _ H).
  - destruct (handle_all_raises (next_events w) g) as (Hq & Hnq).
    destruct (in_dec (fun a b : Event =>
                        ltac:(decide equality; decide equality) : {a = b} + {a <> b})
                QUIT (next_events w)) as [Hin|Hin].
    + rewrite (Hq Hin) in H1. injection H1 as <-. injection H as <-. reflexivity.
    + destruct (Hnq Hin) as (g1 & Hg1). rewrite Hg1 in H1. discriminate H1.
  - discriminate H.
Qed.

(** X1: all along a run no round raises IndexError or ValueError: whatever
    the events and the random draws, the only exception that leaves a round
    is the SystemExit of a quit request. *)
Theorem only_quit_leaves_the_loop (n : nat) (w : World) (x : Game.t)
    (w1 : World) (e : Exn) :
  In x (Game.main_trace n w) ->
  Game.run_body x w1 = Raise e ->
  e = SystemExit.
Proof.
  intros Hin Hr.
  apply (round_raises x w1 e); [|exact Hr].
  clear Hr. revert n w x Hin. apply main_trace_invariant.
  - intros w0 g w' Hi. destruct (reset_state _ _ _ Hi) as (-> & _). discriminate.
  - intros g w0 g' w' _ Hs. exact (round_body_nonempty _ _ _ _ Hs).
Qed.

Lemma only_quit_leaves_the_loop_witness :
  In grown_game (Game.main_trace 2 quiet_world) /\
  Game.run_body grown_game (zero_world [[KEYDOWN K_UP; QUIT]]) = Raise SystemExit /\
  SystemExit = SystemExit.
Proof.
  assert (H : In grown_game (Game.main_trace 2 quiet_world))
    by (right; right; left; reflexivity).
  split; [exact H|]. split; [reflexivity|].
  exact (only_quit_leaves_the_loop 2 quiet_world grown_game
           (zero_world [[KEYDOWN K_UP; QUIT]]) SystemExit H eq_refl).
Defined.

(** ** Events *)

(** X7: [_handle_events] raises SystemExit when the polled batch holds a
    quit request, wherever it stands in the batch; otherwise it returns,
    having used up the batch and changed nothing but the heading. *)
Theorem handle_events_quit_or_heading (g : Game.t) (w : World) :
  (In QUIT (next_events w) -> Game._handle_events g w = Raise SystemExit) /\
  (~ In QUIT (next_events w) ->
   exists g1,
     Game._handle_events g w = Ok (g1, after_poll w) /\ same_but_heading g g1).
Proof.
  unfold Game._handle_events, bind, lift. rewrite event_get_eq.
  destruct (handle_all_raises (next_events w) g) as (Hq & Hnq). split.
  - intros Hin. rewrite (Hq Hin). reflexivity.
  - intros Hin. destruct (Hnq Hin) as (g1 & H1). rewrite H1.
    exists g1. split; [reflexivity|]. exact (handle_all_frame _ _ _ H1).
Qed.

Lemma handle_events_quit_or_heading_witness :
  Game._handle_events straight_game (zero_world [[KEYDOWN K_UP; QUIT]])
    = Raise SystemExit /\
  exists g1,
    Game._handle_events straight_game (zero_world [[KEYDOWN K_UP]; [QUIT]])
      = Ok (g1, after_poll (zero_world [[KEYDOWN K_UP]; [QUIT]])) /\
    same_but_heading straight_game g1.
Proof.
  split.
  - apply (handle_events_quit_or_heading straight_game
             (zero_world [[KEYDOWN K_UP; QUIT]])).
    right; left; reflexivity.
  - apply (handle_events_quit_or_heading straight_game
             (zero_world [[KEYDOWN K_UP]; [QUIT]])).
    intros [H|[]]; discriminate H.
Defined.

(** X8: events that are neither a quit request nor an arrow key press are
    dropped: a batch made of such events leaves the game state as it
    was. *)
Theorem other_events_are_ignored (g : Game.t) (w : World) :
  (forall e, In e (next_events w) -> ignored e) ->
  Game._handle_events g w = Ok (g, after_poll w).
Proof.
  unfold Game._handle_events, bind, lift. rewrite event_get_eq.
  intros Hall.
  assert (H : Game.handle_all (next_events w) g = Ok g).
  { induction (next_events w) as [|e evs IH]; [reflexivity|].
    cbn [Game.handle_all].
    destruct (Hall e (or_introl eq_refl)) as [-> | ->]; cbn [Game.handle_event obind];
      apply IH; intros e' He'; apply Hall; right; exact He'. }
  rewrite H. reflexivity.
Qed.

Lemma other_events_are_ignored_witness :
  Game._handle_events straight_game (zero_world [[OTHER; KEYDOWN K_OTHER]])
    = Ok (straight_game, after_poll (zero_world [[OTHER; KEYDOWN K_OTHER]])).
Proof.
  apply (other_events_are_ignored straight_game
           (zero_world [[OTHER; KEYDOWN K_OTHER]])).
  intros e [<-|[<-|[]]]; [left|right]; reflexivity.
Defined.

(** ** Turning *)

Lemma opposite_involutive (d : Pos) : opposite (opposite d) = d.
Proof. destruct d as [a b]; unfold opposite; cbn. f_equal; lia. Qed.

Lemma change_direction_accept (s : Snake.t) (d : Pos) :
  opposite d <> Snake.direction s ->
  Snake.change_direction s d =
  {| Snake.body := Snake.body s;
     Snake.direction := d;
     Snake.growth_pending := Snake.growth_pending s |}.
Proof.
  intros Hne. unfold Snake.change_direction.
  destruct (pos_eqb (fst d * -1, snd d * -1) (Snake.direction s)) eqn:E;
    [|reflexivity].
  apply pos_eqb_eq in E. exfalso. apply Hne. rewrite <- E.
  destruct d as [a b]; unfold opposite; cbn. f_equal; lia.
Qed.

Lemma handle_key (g : Game.t) (k : Key) (q : Pos) :
  key_direction k = Some q ->
  Game.handle_event g (KEYDOWN k) =
  Ok (Game.set_snake g (Snake.change_direction (Game.snake g) q)).
Proof.
  destruct k; cbn; intros [= <-]; reflexivity.
Qed.

(** X10: one [change_direction] call, whatever its argument, followed by
    [move] never puts the head on the segment behind the old head, when the
    heading is the step the snake last made (head = neck + heading). *)
Theorem one_turn_keeps_off_neck (s : Snake.t) (h n : Pos) (rest : list Pos) (d : Pos) :
  Snake.body s = h :: n :: rest ->
  h = padd n (Snake.direction s) ->
  In (Snake.direction s) directions ->
  exists s',
    Snake.move (Snake.change_direction s d) = Ok s' /\
    Snake.get_head_position s' <> Ok n.
Proof.
  intros Hb Hh Hd.
  destruct (change_direction_frame s d) as (Hfb & _).
  rewrite <- Hfb in Hb.
  rewrite (move_eq _ h (n :: rest) Hb). eexists; split; [reflexivity|].
  unfold Snake.get_head_position. cbn [Snake.body]. intros [= He].
  assert (Hopp : Snake.direction (Snake.change_direction s d) =
                 opposite (Snake.direction s)).
  { subst h. destruct n as [nx ny].
    destruct (Snake.direction (Snake.change_direction s d)) as [a b].
    destruct (Snake.direction s) as [u v].
    unfold padd, opposite in *; cbn in *. injection He as H1 H2. f_equal; lia. }
  clear He. unfold Snake.change_direction in Hopp.
  destruct (pos_eqb (fst d * -1, snd d * -1) (Snake.direction s)) eqn:E;
    cbn [negb Snake.direction] in Hopp.
  - unfold directions, UP, DOWN, LEFT, RIGHT in Hd.
    destruct Hd as [Hd|[Hd|[Hd|[Hd|[]]]]]; rewrite <- Hd in Hopp; discriminate Hopp.
  - apply pos_eqb_neq in E. apply E. rewrite Hopp.
    destruct (Snake.direction s) as [u v]; unfold opposite; cbn. f_equal; lia.
Qed.

Lemma one_turn_keeps_off_neck_witness :
  exists s',
    Snake.move (Snake.change_direction (Game.snake straight_game) LEFT) = Ok s' /\
    Snake.get_head_position s' <> Ok (6, 7).
Proof.
  apply (one_turn_keeps_off_neck (Game.snake straight_game) (7, 7) (6, 7) [(5, 7)] LEFT).
  - reflexivity.
  - reflexivity.
  - right; right; right; left; reflexivity.
Defined.

(** X9: the reversal guard looks at the heading of the moment, so two key
    presses polled in one batch get around it.  For a running snake of at
    least three segments whose second segment lies straight behind the
    head, a turn to the side followed in the same batch by the key opposite
    to the heading makes the snake step back onto its second segment, and
    the round ends with the game over. *)
Theorem two_turns_in_a_batch_reverse (g : Game.t) (w : World)
    (k1 k2 : Key) (p d h x : Pos) (rest : list Pos) :
  Game.game_over g = false ->
  Snake.direction (Game.snake g) = d ->
  In d directions ->
  In p directions -> p <> d -> p <> opposite d ->
  key_direction k1 = Some p ->
  key_direction k2 = Some (opposite d) ->
  Snake.body (Game.snake g) = h :: padd h (opposite d) :: x :: rest ->
  next_events w = [KEYDOWN k1; KEYDOWN k2] ->
  exists g' w',
    Game.run_body g w = Ok (g', w') /\
    Snake.direction (Game.snake g') = opposite d /\
    Snake.get_head_position (Game.snake g') = Ok (padd h (opposite d)) /\
    Game.game_over g' = true.
Proof.
  intros Hrun Hdir Hd Hp Hpd Hpo Hk1 Hk2 Hb Hev.
  assert (Hq : ~ In QUIT (next_events w)).
  { rewrite Hev. intros [H|[H|[]]]; discriminate H. }
  destruct (running_round g w _ _ Hrun Hb Hq)
    as (g1 & s1 & r & g' & w' & H1 & _ & _ & _ & _ & _ & _ & Hr).
  assert (Hd1 : Snake.direction (Game.snake g1) = opposite d).
  { rewrite Hev in H1. cbn [Game.handle_all] in H1.
    rewrite (handle_key _ _ _ Hk1) in H1. cbn [obind] in H1.
    rewrite (handle_key _ _ _ Hk2) in H1. cbn [obind] in H1.
    injection H1 as <-. cbn [Game.set_snake Game.snake].
    rewrite (change_direction_accept (Game.snake g) p).
    - rewrite change_direction_accept; [reflexivity|].
      cbn [Snake.direction]. rewrite opposite_involutive. congruence.
    - rewrite Hdir. intros Ho. apply Hpo. rewrite <- Ho.
      symmetry. apply opposite_involutive. }
  exists g', w'. split; [exact Hr|].
  destruct (running_round_inv _ _ _ _ Hrun Hr)
    as (g1' & old & tail & H1' & Hb1 & Hb' & Hd' & _ & Ho & _).
  rewrite H1 in H1'. injection H1' as <-.
  rewrite Hb in Hb1. injection Hb1 as <- <-.
  rewrite Hd1 in *.
  split; [exact Hd'|].
  split; [unfold Snake.get_head_position; rewrite Hb'; reflexivity|].
  rewrite Ho, Hb'. cbn [tl].
  assert (Hin : pos_in (padd h (opposite d))
                  (if Snake.growth_pending (Game.snake g)
                   then h :: padd h (opposite d) :: x :: rest
                   else removelast (h :: padd h (opposite d) :: x :: rest)) = true).
  { apply pos_in_In. destruct (Snake.growth_pending (Game.snake g)).
    - right; left; reflexivity.
    - change (removelast (h :: padd h (opposite d) :: x :: rest))
        with (h :: padd h (opposite d) :: removelast (x :: rest)).
      right; left; reflexivity. }
  rewrite Hin. apply orb_true_r.
Qed.

Lemma two_turns_in_a_batch_reverse_witness :
  exists g' w',
    Game.run_body straight_game (zero_world [[KEYDOWN K_UP; KEYDOWN K_LEFT]])
      = Ok (g', w') /\
    Snake.direction (Game.snake g') = LEFT /\
    Snake.get_head_position (Game.snake g') = Ok (6, 7) /\
    Game.game_over g' = true.
Proof.
  apply (two_turns_in_a_batch_reverse straight_game
           (zero_world [[KEYDOWN K_UP; KEYDOWN K_LEFT]])
           K_UP K_LEFT UP RIGHT (7, 7) (5, 7) []).
  - reflexivity.
  - reflexivity.
  - right; right; right; left; reflexivity.
  - left; reflexivity.
  - discriminate.
  - discriminate.
  - reflexivity.
  - reflexivity.
  - reflexivity.
  - reflexivity.
Defined.

(** ** Eating *)

(** X13: with the food on the grid, a round of a running game that eats it
    does not hit a wall: the head is on the grid, and the game is over
    after the round exactly when the head is on another segment. *)
Theorem eating_round_hits_no_wall (g g' : Game.t) (w w' : World) (head : Pos) :
  Game.game_over g = false ->
  in_grid (Food.position (Game.food g)) ->
  Game.run_body g w = Ok (g', w') ->
  Snake.get_head_position (Game.snake g') = Ok head ->
  eats g g' ->
  in_grid head /\
  Game.score g' = Game.score g + 10 /\
  (Game.game_over g' = true <-> In head (tl (Snake.body (Game.snake g')))).
Proof.
  intros Hrun Hfood Hr Hhead He.
  unfold eats in He. rewrite Hhead in He. injection He as ->.
  destruct (running_round_inv _ _ _ _ Hrun Hr)
    as (g1 & old & tail & _ & _ & Hb' & _ & _ & Ho & Hyes & _).
  unfold Snake.get_head_position in Hhead. rewrite Hb' in Hhead.
  injection Hhead as Hh. rewrite Hh in *.
  split; [exact Hfood|]. split; [apply (Hyes eq_refl)|].
  rewrite Ho.
  destruct (Game.hits_wall (Food.position (Game.food g))) eqn:Ew.
  - apply hits_wall_spec in Ew. contradiction.
  - cbn [orb]. apply pos_in_In.
Qed.

Lemma eating_round_hits_no_wall_witness :
  let g' := Game.mk (Snake.mk [(6, 5); (5, 5); (5, 6); (6, 6); (6, 5)] RIGHT true)
                    (Food.mk (0, 0)) 40 true in
  Game.run_body coiled_game (zero_world []) = Ok (g', mkWorld (fun _ => 0) 2 []) /\
  in_grid (6, 5) /\
  Game.score g' = Game.score coiled_game + 10 /\
  (Game.game_over g' = true <-> In (6, 5) (tl (Snake.body (Game.snake g')))).
Proof.
  intros g'. split; [reflexivity|].
  apply (eating_round_hits_no_wall coiled_game g' (zero_world [])
           (mkWorld (fun _ => 0) 2 []) (6, 5)).
  - reflexivity.
  - unfold in_grid; cbn; lia.
  - reflexivity.
  - reflexivity.
  - reflexivity.
Defined.

(** ** The game-over screen without a restart *)

(** X11: if no polled batch ever holds a key press or a quit request,
    [_display_game_over] never returns. *)
Theorem wait_without_key_never_ends (g : Game.t) (w : World) :
  Forall quiet (queue w) ->
  Game._display_game_over g w = Diverge.
Proof.
  unfold Game._display_game_over.
  destruct w as [e c q]; cbn [queue entropy cursor].
  induction q as [|b q IH]; intros Hq; [reflexivity|].
  inversion Hq as [|b' q' Hb Hq']; subst.
  cbn [Game.wait_loop].
  assert (Hnq : ~ In QUIT b) by (intros H; apply Hb in H; discriminate H).
  destruct (wait_events_spec b g true (mkWorld e c q) Hnq)
    as (g' & wt' & w' & He & _ & Hquiet & _).
  destruct (Hquiet Hb) as (-> & -> & ->).
  rewrite He. cbn [entropy cursor]. exact (IH Hq').
Qed.

Lemma wait_without_key_never_ends_witness :
  Game._display_game_over dead_game (zero_world [[OTHER]; []; [OTHER; OTHER]])
    = Diverge.
Proof.
  apply (wait_without_key_never_ends dead_game
           (zero_world [[OTHER]; []; [OTHER; OTHER]])).
  repeat constructor; intros e H; cbn in H;
    repeat (destruct H as [<-|H]; [reflexivity|]); destruct H.
Defined.

(** X12: a quit request in the first batch that is not silent ends the wait
    with SystemExit, also when a key press of the same batch has already
    reset the game. *)
Theorem quit_during_wait (g : Game.t) (w : World)
    (pre : list (list Event)) (evs : list Event) (rest : list (list Event)) :
  queue w = pre ++ evs :: rest ->
  Forall quiet pre ->
  In QUIT evs ->
  Game._display_game_over g w = Raise SystemExit.
Proof.
  unfold Game._display_game_over.
  destruct w as [e c q]; cbn [queue entropy cursor]. intros ->.
  induction pre as [|b pre IH]; intros Hpre Hin; cbn [app Game.wait_loop].
  - rewrite (wait_events_quit evs g true _ Hin). reflexivity.
  - inversion Hpre as [|b' pre' Hb Hpre']; subst.
    assert (Hnq : ~ In QUIT b) by (intros H; apply Hb in H; discriminate H).
    destruct (wait_events_spec b g true (mkWorld e c (pre ++ evs :: rest)) Hnq)
      as (g' & wt' & w' & He & _ & Hquiet & _).
    destruct (Hquiet Hb) as (-> & -> & ->).
    rewrite He. cbn [entropy cursor]. exact (IH Hpre' Hin).
Qed.

Lemma quit_during_wait_witness :
  Game._display_game_over dead_game
    (zero_world [[OTHER]; [KEYDOWN K_UP; QUIT]; []]) = Raise SystemExit.
Proof.
  apply (quit_during_wait dead_game
           (zero_world [[OTHER]; [KEYDOWN K_UP; QUIT]; []])
           [[OTHER]] [KEYDOWN K_UP; QUIT] [[]]).
  - reflexivity.
  - constructor; [|constructor]. intros e [<-|[]]; reflexivity.
  - right; left; reflexivity.
Defined.

(** ** Food placement *)

(** X14: [spawn_food] never fails and always returns a cell of the grid,
    whatever the state of the random generator; it takes two draws and
    leaves the event queue alone. *)
Theorem spawn_food_on_grid (w : World) :
  exists p,
    Food.spawn_food w =
      Ok (p, {| entropy := entropy w; cursor := S (S (cursor w)); queue := queue w |}) /\
    0 <= fst p <= GRID_WIDTH - 1 /\
    0 <= snd p <= GRID_HEIGHT - 1.
Proof.
  unfold Food.spawn_food, bind, randint, ret.
  rewrite GRID_WIDTH_eq, GRID_HEIGHT_eq.
  change (30 - 1 <? 0) with false. change (24 - 1 <? 0) with false.
  cbn [entropy cursor queue].
  eexists; split; [reflexivity|]. cbn [fst snd].
  change (30 - 1 - 0 + 1) with 30. change (24 - 1 - 0 + 1) with 24.
  pose proof (Z.mod_pos_bound (entropy w (cursor w)) 30 ltac:(lia)).
  pose proof (Z.mod_pos_bound (entropy w (S (cursor w))) 24 ltac:(lia)).
  lia.
Qed.

(** ** Drawing *)

Lemma cell_rect_new (p : Pos) :
  in_grid p ->
  Rect_new (fst p * GRID_SIZE) (snd p * GRID_SIZE) GRID_SIZE GRID_SIZE
  = Some (cell_rect p).
Proof.
  unfold in_grid. rewrite GRID_WIDTH_eq, GRID_HEIGHT_eq. intros (Hx & Hy).
  unfold Rect_new, cell_rect, fits_c_int, GRID_SIZE.
  assert (E : forall v, - 2 ^ 31 <= v < 2 ^ 31 ->
                        (- 2 ^ 31 <=? v) && (v <? 2 ^ 31) = true).
  { intros v Hv. apply andb_true_iff. rewrite Z.leb_le, Z.ltb_lt. exact Hv. }
  rewrite (E (fst p * 20)), (E (snd p * 20)), (E 20); try reflexivity;
    change (2 ^ 31) with 2147483648; lia.
Qed.

Lemma draw_segment_on_grid (surface : Surface) (p : Pos) :
  in_grid p ->
  Snake.draw_segment surface p =
  Some (surface ++ [DrawRect GREEN (cell_rect p) 0; DrawRect BLACK (cell_rect p) 1]).
Proof.
  intros Hp. unfold Snake.draw_segment. rewrite (cell_rect_new p Hp). reflexivity.
Qed.

(* [Snake.draw] on a body that is on the grid: two rectangles per segment,
   in the order of the body, after what the surface held. *)
Lemma snake_draw_on_grid (l : list Pos) (surface : Surface) :
  Forall in_grid l ->
  fold_left (fun acc segment =>
               match acc with
               | Some sf => Snake.draw_segment sf segment
               | None => None
               end) l (Some surface)
  = Some (surface ++
          flat_map (fun p => [DrawRect GREEN (cell_rect p) 0;
                              DrawRect BLACK (cell_rect p) 1]) l).
Proof.
  revert surface; induction l as [|p l IH]; intros surface Hl; cbn [fold_left flat_map].
  - now rewrite app_nil_r.
  - inversion Hl as [|p' l' Hp Hl']; subst.
    rewrite (draw_segment_on_grid surface p Hp), (IH _ Hl').
    rewrite <- app_assoc. reflexivity.
Qed.

Lemma two_per_segment (l : list Pos) :
  length (flat_map (fun p => [DrawRect GREEN (cell_rect p) 0;
                              DrawRect BLACK (cell_rect p) 1]) l)
  = (2 * length l)%nat.
Proof.
  induction l as [|p l IH]; [reflexivity|].
  cbn [flat_map length app]. rewrite IH. lia.
Qed.

Lemma cell_on_screen (p : Pos) : in_grid p -> rect_on_screen (cell_rect p).
Proof.
  unfold in_grid, rect_on_screen, cell_rect. rewrite GRID_WIDTH_eq, GRID_HEIGHT_eq.
  unfold GRID_SIZE, SCREEN_WIDTH, SCREEN_HEIGHT. cbn [left top width height]. lia.
Qed.

(** X15: when the body and the food are on the grid, [Snake.draw] and then
    [Food.draw] succeed and leave the surface as it was, followed by what
    they add: two rectangles per segment and two for the food, a green
    filled square on the cell of every segment and a red one on the cell
    of the food, all of them inside the 600 x 480 screen. *)
Theorem drawn_inside_the_screen (s : Snake.t) (f : Food.t) (surface : Surface) :
  Forall in_grid (Snake.body s) ->
  in_grid (Food.position f) ->
  exists sf1 sf2 added,
    Snake.draw s surface = Some sf1 /\
    Food.draw f sf1 = Some sf2 /\
    sf2 = surface ++ added /\
    length added = (2 * length (Snake.body s) + 2)%nat /\
    (forall p, In p (Snake.body s) -> In (DrawRect GREEN (cell_rect p) 0) added) /\
    In (DrawRect RED (cell_rect (Food.position f)) 0) added /\
    (forall c, In c added -> rect_on_screen (cmd_rect c)).
Proof.
  intros Hs Hf.
  pose (segs := flat_map (fun p => [DrawRect GREEN (cell_rect p) 0;
                                    DrawRect BLACK (cell_rect p) 1]) (Snake.body s)).
  pose (fd := [DrawRect RED (cell_rect (Food.position f)) 0;
               DrawRect BLACK (cell_rect (Food.position f)) 1]).
  exists (surface ++ segs), ((surface ++ segs) ++ fd), (segs ++ fd).
  split; [exact (snake_draw_on_grid _ surface Hs)|].
  split; [unfold Food.draw; rewrite (cell_rect_new _ Hf); reflexivity|].
  split; [now rewrite app_assoc|].
  split.
  { rewrite length_app. unfold segs, fd. rewrite two_per_segment.
    cbn [length]. lia. }
  split.
  { intros p Hp. apply in_or_app. left. apply in_flat_map.
    exists p. split; [exact Hp|left; reflexivity]. }
  split; [apply in_or_app; right; left; reflexivity|].
  intros c Hc. apply in_app_or in Hc. destruct Hc as [Hc|Hc].
  - apply in_flat_map in Hc. destruct Hc as (p & Hp & Hc).
    rewrite Forall_forall in Hs. specialize (Hs p Hp).
    destruct Hc as [<-|[<-|[]]]; cbn [cmd_rect]; exact (cell_on_screen p Hs).
  - destruct Hc as [<-|[<-|[]]]; cbn [cmd_rect]; exact (cell_on_screen _ Hf).
Qed.

Lemma drawn_inside_the_screen_witness :
  exists sf2,
    option_map (Food.draw (Game.food grown_game))
               (Snake.draw (Game.snake grown_game) []) = Some (Some sf2) /\
    length sf2 = 6%nat /\
    In (DrawRect GREEN (mkRect 340 240 20 20) 0) sf2 /\
    In (DrawRect RED (mkRect 0 0 20 20) 0) sf2.
Proof.
  destruct (drawn_inside_the_screen (Game.snake grown_game) (Game.food grown_game) [])
    as (sf1 & sf2 & added & H1 & H2 & -> & Hl & Hg & Hr & _).
  - repeat constructor; cbn; lia.
  - unfold in_grid; cbn; lia.
  - exists ([] ++ added). rewrite H1. cbn [option_map]. rewrite H2.
    split; [reflexivity|]. split; [exact Hl|]. split.
    + exact (Hg (17, 12) (or_introl eq_refl)).
    + exact Hr.
Defined.

(** X16: the two rectangles drawn for a cell of the grid and the two drawn
    for another cell of the grid share no pixel. *)
Theorem cells_do_not_overlap (p q : Pos) :
  p <> q ->
  in_grid p ->
  in_grid q ->
  exists sf1 sf2,
    Snake.draw_segment [] p = Some sf1 /\
    Snake.draw_segment [] q = Some sf2 /\
    length sf1 = 2%nat /\ length sf2 = 2%nat /\
    forall c1 c2 x y,
      In c1 sf1 -> In c2 sf2 ->
      ~ (covers (cmd_rect c1) x y /\ covers (cmd_rect c2) x y).
Proof.
  intros Hne Hp Hq.
  rewrite (draw_segment_on_grid [] p Hp), (draw_segment_on_grid [] q Hq).
  do 2 eexists. do 4 (split; [reflexivity|]).
  intros c1 c2 x y H1 H2 (Hc1 & Hc2). apply Hne.
  assert (R1 : cmd_rect c1 = cell_rect p)
    by (destruct H1 as [<-|[<-|[]]]; reflexivity).
  assert (R2 : cmd_rect c2 = cell_rect q)
    by (destruct H2 as [<-|[<-|[]]]; reflexivity).
  rewrite R1 in Hc1. rewrite R2 in Hc2.
  unfold covers, cell_rect, GRID_SIZE in *. cbn [left top width height] in *.
  destruct p as [px py], q as [qx qy]; cbn [fst snd] in *. f_equal; lia.
Qed.

Lemma cells_do_not_overlap_witness :
  exists sf1 sf2,
    Snake.draw_segment [] (17, 12) = Some sf1 /\
    Snake.draw_segment [] (16, 12) = Some sf2 /\
    In (DrawRect GREEN (mkRect 340 240 20 20) 0) sf1 /\
    In (DrawRect BLACK (mkRect 320 240 20 20) 1) sf2 /\
    ~ (covers (mkRect 340 240 20 20) 350 250 /\ covers (mkRect 320 240 20 20) 350 250).
Proof.
  destruct (cells_do_not_overlap (17, 12) (16, 12)) as (sf1 & sf2 & H1 & H2 & _ & _ & H).
  - discriminate.
  - unfold in_grid; cbn; lia.
  - unfold in_grid; cbn; lia.
  - exists sf1, sf2. split; [exact H1|]. split; [exact H2|].
    assert (G : In (DrawRect GREEN (mkRect 340 240 20 20) 0) sf1).
    { vm_compute in H1. injection H1 as <-. left; reflexivity. }
    assert (B : In (DrawRect BLACK (mkRect 320 240 20 20) 1) sf2).
    { vm_compute in H2. injection H2 as <-. right; left; reflexivity. }
    split; [exact G|]. split; [exact B|]. exact (H _ _ 350 250 G B).
Defined.

Lemma main_trace_body_nonempty_witness :
  Snake.body (Game.snake grown_game) <> [].
Proof.
  apply (main_trace_body_nonempty 2 quiet_world grown_game).
  right; right; left; reflexivity.
Defined.
